(** * Secret Santa cycle generator: a shallow embedding of [secret_santa.py]

    The development follows the source file function by function:
    [partition_into_sets], [create_secret_santa_cycle],
    [validate_and_deduplicate_inputs], [read_participants], [read_partners]
    and [main].

    - Participants are Python strings.
    - The partnership mapping is a Python [dict]; iteration follows insertion
      order and the deduplication loop depends on it, so a dict is an
      association list whose keys are pairwise distinct.
    - The hidden random source is made explicit: a generator state [rng] is
      threaded through the code, [coin] stands for [random.random() < 0.5] and
      [shuffle] for [random.shuffle].
    - [list(set(xs))] enumerates the distinct elements of [xs] in an order the
      language does not fix; [set_order] stands for that order.
    - Exceptions are values of [exn]; a computation that may raise returns
      [result A].
    - A file is the list of its lines, each with its line ending. *)

From stdpp Require Import base decidable option list strings gmap sets.

#[local] Set Warnings "-clear-no-such-hyp".

Abbreviation participant := string.

(** ** Exceptions *)

Inductive value_error : Type :=
  | InsufficientParticipants
      (* "There must be more than 2 participants for Secret Santa." *)
  | TooManyPartnerships (max_partners : nat)
      (* "Too many partnerships. Maximum allowed is {max_partners}." *)
  | UnknownPartner (partner : participant).
      (* "Partner '{partner}' not found in the participant list." *)

Inductive exn : Type :=
  | ValueError (e : value_error)
  | IndexError.

Definition result : Type → Type := sum exn.

Definition raise {A} (e : exn) : result A := inl e.

#[global] Instance result_ret : MRet result := λ A x, inr x.
#[global] Instance result_bind : MBind result := λ A B f m,
  match m with
  | inl e => inl e
  | inr x => f x
  end.

(** ** Python lists *)

(** [l[i]] for [0 <= i]. *)
Definition getitem {A} (l : list A) (i : nat) : result A :=
  match l !! i with
  | Some x => mret x
  | None => raise IndexError
  end.

(** [l[-1]]. *)
Definition getlast {A} (l : list A) : result A :=
  match last l with
  | Some x => mret x
  | None => raise IndexError
  end.

(** [l[i] = x]. *)
Definition setitem {A} (l : list A) (i : nat) (x : A) : result (list A) :=
  if decide (i < length l) then mret (<[i:=x]> l) else raise IndexError.

(** [l[i], l[j] = l[j], l[i]]: the right-hand side is read first, then the
    two stores happen from left to right. *)
Definition swapitems {A} (l : list A) (i j : nat) : result (list A) :=
  xj ← getitem l j;
  xi ← getitem l i;
  l' ← setitem l i xj;
  setitem l' j xi.

(** ** Python dicts *)

Abbreviation dict := (list (participant * participant)).

Definition keys (d : dict) : list participant := d.*1.
Definition values (d : dict) : list participant := d.*2.

(** A list of items is a dict when no key occurs twice. *)
Definition dict_wf (d : dict) : Prop := NoDup (keys d).

(** [d.get(k)] *)
Fixpoint dict_get (d : dict) (k : participant) : option participant :=
  match d with
  | [] => None
  | (k', v) :: d' => if decide (k' = k) then Some v else dict_get d' k
  end.

(** [d[k] = v]: an existing key keeps its position, a new key goes last. *)
Fixpoint dict_set (d : dict) (k v : participant) : dict :=
  match d with
  | [] => [(k, v)]
  | (k', v') :: d' =>
      if decide (k' = k) then (k, v) :: d' else (k', v') :: dict_set d' k v
  end.

(** [(k, v) in d.items()] *)
Definition items_contains (d : dict) (k v : participant) : bool :=
  bool_decide (dict_get d k = Some v).

(** Truth value of an optional dict: [None] and [{}] are both false. *)
Definition truthy (partners : option dict) : bool :=
  match partners with
  | Some (_ :: _) => true
  | _ => false
  end.

(** [partners[p]] under the guard [partners and p in partners]. *)
Definition partner_of (partners : option dict) (p : participant)
  : option participant :=
  match partners with
  | Some d => if truthy partners then dict_get d p else None
  | None => None
  end.

Abbreviation edge := (participant * participant)%type.

(** ** Console output *)

Inductive line : Type :=
  | WarnParticipants (removed : nat)
      (* "Warning: Removed {removed} duplicate participant(s)." *)
  | WarnPartnerships (removed : nat)
      (* "Warning: Removed {removed} duplicate partnership(s)." *)
  | CycleHeader
      (* "Secret Santa Cycle:" *)
  | Assignment (giver receiver : participant)
      (* "{giver} -> {receiver}" *)
  | ValidationError (e : value_error).
      (* "Input Validation Error: {e}" *)

#[global] Instance value_error_eq_dec : EqDecision value_error.
Proof. solve_decision. Defined.
#[global] Instance exn_eq_dec : EqDecision exn.
Proof. solve_decision. Defined.
#[global] Instance line_eq_dec : EqDecision line.
Proof. solve_decision. Defined.

(** ** [read_partners], after each line has been split at the comma *)

Definition read_partners (pairs : list (participant * participant)) : dict :=
  foldl (λ partners pr, dict_set (dict_set partners pr.1 pr.2) pr.2 pr.1)
        [] pairs.

(** ** Text

    A string is a sequence of 8-bit code points. *)

(** [c.isspace()] on the code points below 256: the controls 9 to 13 and
    28 to 31, the space, NEL (133) and the no-break space (160). *)
Definition is_space (c : Ascii.ascii) : bool :=
  let n := Ascii.nat_of_ascii c in
  (9 <=? n) && (n <=? 13) || (28 <=? n) && (n <=? 32)
  || (n =? 133) || (n =? 160).

(** [s.lstrip()] *)
Fixpoint lstrip (s : string) : string :=
  match s with
  | EmptyString => EmptyString
  | String c s' => if is_space c then lstrip s' else s
  end.

(** [s.rstrip()] *)
Fixpoint rstrip (s : string) : string :=
  match s with
  | EmptyString => EmptyString
  | String c s' =>
      match rstrip s' with
      | EmptyString => if is_space c then EmptyString else String c EmptyString
      | r => String c r
      end
  end.

(** [s.strip()] *)
Definition strip (s : string) : string := rstrip (lstrip s).

(** [s.split(sep)] for a separator of one character: a string without
    separator gives one part, the empty string included. *)
Fixpoint split (sep : Ascii.ascii) (s : string) : list string :=
  match s with
  | EmptyString => [EmptyString]
  | String c s' =>
      if decide (c = sep) then EmptyString :: split sep s'
      else
        match split sep s' with
        | [] => [String c EmptyString]
        | part :: parts => String c part :: parts
        end
  end.

(** Number of occurrences of a character. *)
Fixpoint count_char (sep : Ascii.ascii) (s : string) : nat :=
  match s with
  | EmptyString => 0
  | String c s' => (if decide (c = sep) then 1 else 0) + count_char sep s'
  end.

Definition comma : Ascii.ascii := Ascii.ascii_of_nat 44.

(** The first and the last character of a string, if any. *)
Definition first_char (s : string) : option Ascii.ascii :=
  match s with
  | EmptyString => None
  | String c _ => Some c
  end.

Fixpoint last_char (s : string) : option Ascii.ascii :=
  match s with
  | EmptyString => None
  | String c EmptyString => Some c
  | String _ s' => last_char s'
  end.

(** A token: not empty, and no white space at either end. *)
Definition clean (s : string) : Prop :=
  (∃ c, first_char s = Some c ∧ is_space c = false)
  ∧ (∃ c, last_char s = Some c ∧ is_space c = false).

(** A string of white space only, the empty one included. *)
Fixpoint all_space (s : string) : bool :=
  match s with
  | EmptyString => true
  | String c s' => is_space c && all_space s'
  end.

(** [line] is [token] with white space around it. *)
Definition padded (token line : string) : Prop :=
  ∃ w1 w2, all_space w1 = true ∧ all_space w2 = true
           ∧ line = w1 +:+ token +:+ w2.

(** ** [read_participants], on the lines of the file *)

(** [[line.strip() for line in f if line.strip()]] *)
Definition read_participants (file : list string) : list participant :=
  strip <$> filter (λ line, strip line ≠ EmptyString) file.

(** ** [read_partners], on the lines of the file *)

(** The [ValueError] of an unpacking assignment with two targets: not
    enough values, or too many. *)
Inductive unpack_error : Type :=
  | UnpackError (got : nat).

(** [p1, p2 = parts] *)
Definition unpack2 (parts : list string)
  : unpack_error + (participant * participant) :=
  match parts with
  | [p1; p2] => inr (p1, p2)
  | _ => inl (UnpackError (length parts))
  end.

(** [[x.strip() for x in line.split(',')]] *)
Definition line_parts (line : string) : list string :=
  strip <$> split comma line.

(** One iteration of [for line in f]. *)
Definition read_partners_step (acc : unpack_error + dict) (line : string)
  : unpack_error + dict :=
  match acc with
  | inl e => inl e
  | inr partners =>
      match unpack2 (line_parts line) with
      | inl e => inl e
      | inr (p1, p2) => inr (dict_set (dict_set partners p1 p2) p2 p1)
      end
  end.

Definition read_partners_file (file : list string) : unpack_error + dict :=
  foldl read_partners_step (inr []) file.

(** ** A concrete random source *)

(** A scripted source: the coin tosses are read off a list ([false] once it
    is exhausted), and a second list says for each shuffle whether it
    reverses its argument or leaves it as it is. *)
Definition script : Type := list bool * list bool.

Definition script_coin (g : script) : bool * script :=
  (default false (head g.1), (tail g.1, g.2)).

Definition script_shuffle (g : script) (l : list participant)
  : list participant * script :=
  (if default false (head g.2) then reverse l else l, (g.1, tail g.2)).

(** ** Vocabulary of the specification *)

(** The identifiers that occur in a partnership mapping, as key or value. *)
Definition partner_ids (partners : option dict) : list participant :=
  match partners with
  | Some d => keys d ++ values d
  | None => []
  end.

(** Number of distinct elements of a list. *)
Definition distinct_count (xs : list participant) : nat :=
  length (remove_dups xs).

(** A line that shows a cycle, or part of one. *)
Definition is_cycle_line (ln : line) : Prop :=
  match ln with
  | CycleHeader | Assignment _ _ => True
  | _ => False
  end.

(** A mapping is canonical when no key occurs twice and no item is the
    mirror image of an item before it. *)
Definition canonical (d : dict) : Prop :=
  dict_wf d ∧
  ∀ i p1 p2, d !! i = Some (p1, p2) → dict_get (take i d) p2 ≠ Some p1.

(** Number of occurrences of [x] in [l]. *)
Definition occurrences (x : participant) (l : list participant) : nat :=
  length (filter (x =.) l).

(** Every participant is the giver of exactly one edge and the receiver of
    exactly one edge. *)
Definition covers_once (participants : list participant)
    (cycle : list edge) : Prop :=
  Forall (λ p, occurrences p (cycle.*1) = 1 ∧ occurrences p (cycle.*2) = 1)
         participants.

(** No edge joins the two members of a partnership, in either direction. *)
Definition partners_apart (partners : option dict)
    (cycle : list edge) : Prop :=
  Forall (λ pr, (pr ∉ cycle) ∧ (prod_swap pr ∉ cycle))
         (default [] partners).

(** No edge has its giver as receiver. *)
Definition no_self_edge (cycle : list edge) : Prop :=
  Forall (λ e, e.1 ≠ e.2) cycle.

(** The two groups are disjoint, hold exactly the participants, and
    separate the two members of every partnership. *)
Definition groups_disjoint (sa sb : list participant) : Prop :=
  Forall (λ x, x ∉ sb) sa.

Definition groups_cover (participants sa sb : list participant) : Prop :=
  Forall (λ x, x ∈ participants) (sa ++ sb)
  ∧ Forall (λ x, x ∈ sa ++ sb) participants.

Definition groups_separate (partners : option dict)
    (sa sb : list participant) : Prop :=
  Forall (λ pr, ¬ (pr.1 ∈ sa ∧ pr.2 ∈ sa) ∧ ¬ (pr.1 ∈ sb ∧ pr.2 ∈ sb))
         (default [] partners).

(** The edges that pair every element of [l] with the next one, and the
    last one with [z]. *)
Definition chain (l : list participant) (z : participant) : list edge :=
  zip l (tail l ++ [z]).

(** The edges of the round trip through [l]: every element gives to the
    next one and the last one to the first. *)
Definition circular (l : list participant) : list edge :=
  zip l (tail l ++ option_list (head l)).

(** Every pair followed by its mirror image. *)
Definition both_directions (pairs : list (participant * participant))
  : dict :=
  pairs ≫= λ pr, [pr; prod_swap pr].

(** ** Inputs used in the examples *)

Section inputs.
#[local] Open Scope string_scope.

(** A partners file with the single line [Alice,Bob]. *)
Definition couple : option dict := Some (read_partners [("Alice", "Bob")]).

(** The same mapping after deduplication. *)
Definition couple_dedup : option dict := Some [("Alice", "Bob")].

Definition bob_first : list participant := ["Bob"; "Alice"; "Carol"].

Definition carol_first : list participant :=
  ["Carol"; "Alice"; "Bob"; "Dave"].

Definition two_people : list participant := ["Alice"; "Bob"].

Definition with_duplicate : list participant :=
  ["Alice"; "Bob"; "Alice"; "Carol"; "Dave"].

Definition stranger : option dict :=
  Some (read_partners [("Alice", "Dave")]).

Definition two_couples : option dict :=
  Some (read_partners [("Alice", "Bob"); ("Carol", "Dave")]).

Definition two_couples_dedup : option dict :=
  Some [("Alice", "Bob"); ("Carol", "Dave")].

Definition couples_mixed : list participant :=
  ["Carol"; "Alice"; "Dave"; "Bob"].

Definition six_people : list participant :=
  ["A"; "B"; "C"; "D"; "E"; "F"].

(** Sets are enumerated in the order of the list they were built from. *)
Definition insertion_order (l : list participant) : list participant := l.

Definition heads : script := ([true], []).
Definition tails : script := ([false], []).

(** Tails then heads, and only the second shuffle reverses. *)
Definition tails_heads_reverse_b : script := ([false; true], [false; true]).

(** No coin is needed, and only the first shuffle reverses. *)
Definition reverse_a : script := ([], [true; false]).
(** The line feed that ends a line of a file. *)
Definition newline : string := String (Ascii.ascii_of_nat 10) EmptyString.

Definition participants_file : list string :=
  ["  Alice" +:+ newline; "Bob " +:+ newline].

Definition partners_file : list string :=
  ["Alice, Bob" +:+ newline; "Carol,Dave"].
End inputs.

Section secret_santa.

(** The random source and the enumeration order of sets. *)
Context {rng : Type}.
Variable coin : rng → bool * rng.
Variable shuffle : rng → list participant → list participant * rng.
Variable set_order : list participant → list participant.

(** *** [partition_into_sets] *)

Record partition_state : Type := PartitionState {
  set_a : list participant;
  set_b : list participant;
  assigned : gset participant;
  gen : rng
}.

(** One iteration of [for p in participants]. *)
Definition partition_step (partners : option dict)
    (st : partition_state) (p : participant) : partition_state :=
  if decide (p ∈ assigned st) then st
  else
    match partner_of partners p with
    | Some partner =>
        let '(heads, g) := coin (gen st) in
        if heads then
          PartitionState (set_a st ++ [p]) (set_b st ++ [partner])
            ({[partner]} ∪ ({[p]} ∪ assigned st)) g
        else
          PartitionState (set_a st ++ [partner]) (set_b st ++ [p])
            ({[partner]} ∪ ({[p]} ∪ assigned st)) g
    | None =>
        if decide (length (set_a st) ≤ length (set_b st)) then
          PartitionState (set_a st ++ [p]) (set_b st)
            ({[p]} ∪ assigned st) (gen st)
        else
          PartitionState (set_a st) (set_b st ++ [p])
            ({[p]} ∪ assigned st) (gen st)
    end.

Definition partition_loop (partners : option dict)
    (participants : list participant) (g : rng) : partition_state :=
  foldl (partition_step partners) (PartitionState [] [] ∅ g) participants.

Definition partition_into_sets (participants : list participant)
    (partners : option dict) (g : rng)
  : list participant * list participant * rng :=
  let st := partition_loop partners participants g in
  (set_a st, set_b st, gen st).

(** The loop invariant behind non-emptiness: group A is filled first, and group B stays empty only while at most
    one participant has been placed. *)
Definition groups_filled (st : partition_state) : Prop :=
  (set_a st = [] → assigned st = ∅) ∧
  (set_b st = [] → ∀ x y, x ∈ assigned st → y ∈ assigned st → x = y).

(** The loop invariant behind a proper partition: no participant is placed
    twice, the placed ones are the assigned ones, partners sit in opposite
    groups, and nobody outside [everyone] is placed. *)
Definition groups_proper (partners : option dict)
    (everyone : list participant) (st : partition_state) : Prop :=
  NoDup (set_a st ++ set_b st)
  ∧ (∀ x, x ∈ assigned st ↔ x ∈ set_a st ++ set_b st)
  ∧ (∀ x y, partner_of partners x = Some y →
            (x ∈ set_a st → y ∈ set_b st) ∧ (x ∈ set_b st → y ∈ set_a st))
  ∧ (∀ x, x ∈ set_a st ++ set_b st → x ∈ everyone).

(** *** [create_secret_santa_cycle] *)

(** [for i in range(1, len(l)): if l[i] != target: swap l[0], l[i]; break],
    the loop running over the indices [idxs]. *)
Fixpoint swap_loop (l : list participant) (target : option participant)
    (idxs : list nat) : result (list participant) :=
  match idxs with
  | [] => mret l
  | i :: idxs' =>
      x ← getitem l i;
      if decide (Some x ≠ target) then swapitems l 0 i
      else swap_loop l target idxs'
  end.

Definition resolve_seam (d : dict) (last_ first_ : participant)
    (l : list participant) : result (list participant) :=
  if decide (dict_get d last_ = Some first_) then
    swap_loop l (dict_get d last_) (seq 1 (length l - 1))
  else mret l.

(** Step 3 of the source. The four end points are read once, before
    either swap. *)
Definition resolve_conflicts (partners : option dict)
    (sa sb : list participant)
  : result (list participant * list participant) :=
  match partners with
  | Some d =>
      if truthy partners then
        a_last ← getlast sa;
        b_first ← getitem sb 0;
        b_last ← getlast sb;
        a_first ← getitem sa 0;
        sb' ← resolve_seam d a_last b_first sb;
        sa' ← resolve_seam d b_last a_first sa;
        mret (sa', sb')
      else mret (sa, sb)
  | None => mret (sa, sb)
  end.

(** [[(l[i], l[i + 1]) for i in range(len(l) - 1)]] *)
Definition links (l : list participant) : result (list edge) :=
  mapM (λ i, x ← getitem l i; y ← getitem l (S i); mret (x, y))
       (seq 0 (length l - 1)).

Definition cross_links (sa sb : list participant) : result (list edge) :=
  a_last ← getlast sa;
  b_first ← getitem sb 0;
  b_last ← getlast sb;
  a_first ← getitem sa 0;
  mret [(a_last, b_first); (b_last, a_first)].

(** Steps 3 to 5, on the two shuffled groups. *)
Definition assemble (partners : option dict) (sa sb : list participant)
  : result (list edge) :=
  '(sa', sb') ← resolve_conflicts partners sa sb;
  cycle_a ← links sa';
  cycle_b ← links sb';
  cross ← cross_links sa' sb';
  mret (cycle_a ++ cross ++ cycle_b).

Definition create_secret_santa_cycle (participants : list participant)
    (partners : option dict) (g : rng) : result (list edge) :=
  let '(sa, sb, g1) := partition_into_sets participants partners g in
  let '(sa1, g2) := shuffle g1 sa in
  let '(sb1, _) := shuffle g2 sb in
  assemble partners sa1 sb1.

(** *** [validate_and_deduplicate_inputs] *)

(** [list(set(xs))] *)
Definition list_of_set (xs : list participant) : list participant :=
  set_order (remove_dups xs).

Definition dedup_step (acc : dict) (item : participant * participant)
  : dict :=
  let '(p1, p2) := item in
  if items_contains acc p2 p1 then acc else dict_set acc p1 p2.

Definition deduplicate_partners (partners : dict) : dict :=
  foldl dedup_step [] partners.

(** [set(partners.keys()) | set(partners.values())], as enumerated by the
    [for] loop that follows it. *)
Definition unique_partners (d : dict) : list participant :=
  list_of_set (keys d ++ values d).

(** The warnings printed by the two deduplication passes and the
    deduplicated mapping. *)
Definition deduplicate (participants : list participant)
    (partners : option dict)
  : list line * (list participant * option dict) :=
  let participants' := list_of_set participants in
  let w1 :=
    if decide (length participants' < length participants)
    then [WarnParticipants (length participants - length participants')]
    else [] in
  match partners with
  | Some d =>
      if truthy partners then
        let d' := deduplicate_partners d in
        let w2 :=
          if decide (length d' < length d)
          then [WarnPartnerships (length d - length d')]
          else [] in
        (w1 ++ w2, (participants', Some d'))
      else (w1, (participants', partners))
  | None => (w1, (participants', partners))
  end.

(** The checks after deduplication. *)
Definition check (participants : list participant)
    (partners : option dict) : result (list participant * option dict) :=
  if decide (length participants ≤ 2) then
    raise (ValueError InsufficientParticipants)
  else
    match partners with
    | Some d =>
        if truthy partners then
          let max_partners := length participants `div` 2 in
          let unique := unique_partners d in
          if decide (max_partners * 2 < length unique) then
            raise (ValueError (TooManyPartnerships max_partners))
          else
            match list_find (λ p, p ∉ participants) unique with
            | Some (_, p) => raise (ValueError (UnknownPartner p))
            | None => mret (participants, partners)
            end
        else mret (participants, partners)
    | None => mret (participants, partners)
    end.

(** The function prints its warnings and then returns or raises. *)
Definition validate_and_deduplicate_inputs
    (participants : list participant) (partners : option dict)
  : list line * result (list participant * option dict) :=
  let '(warnings, (participants', partners')) :=
    deduplicate participants partners in
  (warnings, check participants' partners').

(** *** [main], after the two files have been read *)

(** What the run prints, and the exception that leaves [main] if any:
    only [ValueError] is caught. *)
Definition main (participants : list participant)
    (partners : option dict) (g : rng) : list line * option exn :=
  let '(warnings, validated) :=
    validate_and_deduplicate_inputs participants partners in
  match validated with
  | inr (participants', partners') =>
      match create_secret_santa_cycle participants' partners' g with
      | inr cycle =>
          (warnings ++ CycleHeader :: map (λ e, Assignment e.1 e.2) cycle,
           None)
      | inl (ValueError e) => (warnings ++ [ValidationError e], None)
      | inl e => (warnings, Some e)
      end
  | inl (ValueError e) => (warnings ++ [ValidationError e], None)
  | inl e => (warnings, Some e)
  end.

(** *** [main], from the two files

    [partners_file] is [None] when the option [--partners] is absent. The
    two reads come before the [try] block, so the [ValueError] of a
    malformed partners line is not caught. *)



(** * Properties of the validation step *)

(** A set is enumerated without repetition or omission. *)
Hypothesis set_order_perm : ∀ l, set_order l ≡ₚ l.

Lemma validate_unfold participants partners :
  validate_and_deduplicate_inputs participants partners =
    ((deduplicate participants partners).1,
     check (deduplicate participants partners).2.1
           (deduplicate participants partners).2.2).
Proof.
  unfold validate_and_deduplicate_inputs.
  by destruct (deduplicate participants partners) as [w [ps' pr']].
Qed.

Lemma validate_result participants partners :
  (validate_and_deduplicate_inputs participants partners).2
  = check (deduplicate participants partners).2.1
          (deduplicate participants partners).2.2.
Proof. by rewrite validate_unfold. Qed.

Lemma deduplicate_participants participants partners :
  (deduplicate participants partners).2.1 = list_of_set participants.
Proof.
  unfold deduplicate.
  destruct partners as [d|]; [destruct (truthy (Some d))|]; done.
Qed.

Lemma length_list_of_set xs :
  length (list_of_set xs) = distinct_count xs.
Proof. unfold list_of_set. by rewrite set_order_perm. Qed.

Lemma elem_of_list_of_set x xs : x ∈ list_of_set xs ↔ x ∈ xs.
Proof.
  unfold list_of_set.
  by rewrite set_order_perm, elem_of_remove_dups.
Qed.

Lemma NoDup_list_of_set xs : NoDup (list_of_set xs).
Proof.
  unfold list_of_set.
  rewrite set_order_perm. apply NoDup_remove_dups.
Qed.

Lemma elem_of_unique_partners x d :
  x ∈ unique_partners d ↔ x ∈ partner_ids (Some d).
Proof. apply elem_of_list_of_set. Qed.

Lemma length_unique_partners d :
  length (unique_partners d) = distinct_count (partner_ids (Some d)).
Proof. apply length_list_of_set. Qed.

Lemma partner_ids_falsy partners :
  truthy partners = false → partner_ids partners = [].
Proof. by destruct partners as [[|??]|]. Qed.

(** The participant-count check comes first and is the only source of
    [InsufficientParticipants]. *)
Lemma check_insufficient participants partners :
  check participants partners = raise (ValueError InsufficientParticipants)
  ↔ length participants ≤ 2.
Proof.
  unfold check. case_decide as Hlen; [done|].
  split; [|lia]. intros Hraise. exfalso.
  destruct partners as [d|]; [|done].
  destruct (truthy (Some d)); [|done].
  case_decide; [done|].
  by destruct (list_find _ _) as [[??]|].
Qed.

Lemma check_too_many participants partners :
  2 < length participants →
  (∃ m, check participants partners
        = raise (ValueError (TooManyPartnerships m)))
  ↔ length participants `div` 2 * 2
      < distinct_count (partner_ids partners).
Proof.
  intros Hlen. unfold check. case_decide; [lia|].
  destruct partners as [d|];
    [|split; [by intros [??]|unfold distinct_count; simpl; lia]].
  destruct (truthy (Some d)) eqn:Ht.
  - rewrite length_unique_partners. case_decide.
    + split; [done|]. eauto.
    + split; [|done]. intros [m Hm].
      by destruct (list_find _ _) as [[??]|].
  - rewrite (partner_ids_falsy _ Ht).
    split; [by intros [??]|unfold distinct_count; simpl; lia].
Qed.

Lemma check_unknown participants partners :
  2 < length participants →
  distinct_count (partner_ids partners) ≤ length participants `div` 2 * 2 →
  (∃ p, check participants partners = raise (ValueError (UnknownPartner p)))
  ↔ ∃ x, x ∈ partner_ids partners ∧ x ∉ participants.
Proof.
  intros Hlen Hmax. unfold check. case_decide; [lia|].
  destruct partners as [d|];
    [|split; [by intros [??]|by intros (? & ?%elem_of_nil & ?)]].
  destruct (truthy (Some d)) eqn:Ht.
  - rewrite length_unique_partners. case_decide; [lia|].
    destruct (list_find _ _) as [[i p]|] eqn:Hfind.
    + apply list_find_Some in Hfind as (Hi & Hp & _).
      split; [|by eauto]. intros _. exists p. split; [|done].
      apply elem_of_unique_partners. by eapply list_elem_of_lookup_2.
    + apply list_find_None in Hfind.
      split; [by intros [??]|]. intros (x & Hx & Hnot). exfalso.
      rewrite Forall_forall in Hfind.
      by apply (Hfind x); [apply elem_of_unique_partners|].
  - rewrite (partner_ids_falsy _ Ht).
    split; [by intros [??]|by intros (? & ?%elem_of_nil & ?)].
Qed.

Lemma deduplicate_warnings participants partners :
  Forall (λ ln, ¬ is_cycle_line ln) (deduplicate participants partners).1.
Proof.
  unfold deduplicate.
  destruct partners as [d|]; [destruct (truthy (Some d))|]; simpl;
    repeat case_decide; repeat constructor; simpl; tauto.
Qed.

(** C7. The insufficient-participants error is raised exactly when fewer
    than three distinct participants remain after deduplication; so two
    distinct participants raise it and three or more do not. *)
Theorem insufficient_participants_iff participants partners :
  (validate_and_deduplicate_inputs participants partners).2
    = raise (ValueError InsufficientParticipants)
  ↔ distinct_count participants < 3.
Proof.
  rewrite validate_result.
  rewrite check_insufficient, deduplicate_participants, length_list_of_set.
  lia.
Qed.

(** C9. With at least three distinct participants, the
    too-many-partnerships error is raised exactly when the number of
    distinct individuals in the deduplicated mapping exceeds
    2 * floor(participant_count / 2). *)
Theorem too_many_partnerships_iff participants partners :
  3 ≤ distinct_count participants →
  (∃ m, (validate_and_deduplicate_inputs participants partners).2
        = raise (ValueError (TooManyPartnerships m)))
  ↔ 2 * (distinct_count participants `div` 2)
      < distinct_count (partner_ids (deduplicate participants partners).2.2).
Proof.
  intros Hn. rewrite validate_result.
  rewrite check_too_many, deduplicate_participants, length_list_of_set;
    [lia|].
  rewrite deduplicate_participants, length_list_of_set. lia.
Qed.

(** C8. With at least three distinct participants and no more partnered
    individuals than the structural maximum, the unknown-partner error is
    raised exactly when some identifier of the deduplicated mapping, key or
    value, is not a participant. *)
Theorem unknown_partner_iff participants partners :
  3 ≤ distinct_count participants →
  distinct_count (partner_ids (deduplicate participants partners).2.2)
    ≤ 2 * (distinct_count participants `div` 2) →
  (∃ p, (validate_and_deduplicate_inputs participants partners).2
        = raise (ValueError (UnknownPartner p)))
  ↔ ∃ x, x ∈ partner_ids (deduplicate participants partners).2.2
         ∧ x ∉ participants.
Proof.
  intros Hn Hmax. rewrite validate_result.
  rewrite check_unknown.
  - rewrite deduplicate_participants.
    by setoid_rewrite elem_of_list_of_set.
  - rewrite deduplicate_participants, length_list_of_set. lia.
  - rewrite deduplicate_participants, length_list_of_set. lia.
Qed.

(** Validation raises nothing but its three errors. *)
Lemma check_raises participants partners e :
  check participants partners = raise e → ∃ v, e = ValueError v.
Proof.
  unfold check. case_decide; [intros [= <-]; by eauto|].
  destruct partners as [d|]; [|done].
  destruct (truthy (Some d)); [|done].
  case_decide; [intros [= <-]; by eauto|].
  destruct (list_find _ _) as [[??]|]; [intros [= <-]; by eauto|done].
Qed.

(** C6. When validation raises, the exception is one of the three
    validation errors and [main] prints the warnings and the error message
    and nothing else: no header and no giver -> receiver line. The result
    does not mention the random source, which is only consulted by
    partitioning and cycle assembly. *)
Theorem validation_error_aborts_run participants partners g warnings e :
  validate_and_deduplicate_inputs participants partners
    = (warnings, raise e) →
  ∃ v, e = ValueError v
       ∧ main participants partners g
           = (warnings ++ [ValidationError v], None)
       ∧ Forall (λ ln, ¬ is_cycle_line ln) (main participants partners g).1.
Proof.
  intros Hval.
  assert (∃ v, e = ValueError v) as [v ->].
  { rewrite validate_unfold in Hval. injection Hval as _ Hcheck.
    by eapply check_raises. }
  exists v. split; [done|].
  assert (main participants partners g
          = (warnings ++ [ValidationError v], None)) as Hmain.
  { unfold main. by rewrite Hval. }
  split; [done|]. rewrite Hmain; simpl.
  apply Forall_app. split; [|by repeat constructor; simpl; tauto].
  rewrite validate_unfold in Hval. injection Hval as <- _.
  apply deduplicate_warnings.
Qed.

(** * Idempotence of normalization *)

Lemma dict_get_None d k : dict_get d k = None ↔ k ∉ keys d.
Proof.
  unfold keys. induction d as [|[k' v] d IH]; simpl.
  - split; [intros _; apply not_elem_of_nil|done].
  - rewrite not_elem_of_cons, <- IH. case_decide as Hk.
    + split; [done|]. intros [? _]. congruence.
    + split; [by split; [congruence|]|by intros [_ ?]].
Qed.

Lemma dict_set_fresh d k v : k ∉ keys d → dict_set d k v = d ++ [(k, v)].
Proof.
  unfold keys. induction d as [|[k' v'] d IH]; simpl; [done|].
  rewrite not_elem_of_cons. intros [Hne Hnot].
  case_decide; [congruence|]. by rewrite IH.
Qed.

Lemma dict_set_nonempty d k v : dict_set d k v ≠ [].
Proof. destruct d as [|[??]?]; simpl; [done|]. by case_decide. Qed.

Lemma keys_snoc d k v : keys (d ++ [(k, v)]) = keys d ++ [k].
Proof. unfold keys. by rewrite fmap_app. Qed.

Lemma remove_dups_NoDup (l : list participant) :
  NoDup l → remove_dups l = l.
Proof.
  intros Hnd. induction Hnd as [|x l Hx Hl IH]; simpl; [done|].
  rewrite IH. by case_decide.
Qed.

Lemma canonical_nil : canonical [].
Proof. split; [constructor|]. by intros ???. Qed.

Lemma canonical_snoc d p1 p2 :
  canonical d → p1 ∉ keys d → dict_get d p2 ≠ Some p1 →
  canonical (d ++ [(p1, p2)]).
Proof.
  intros [Hwf Hmirror] Hfresh Hnew. split.
  - unfold dict_wf. rewrite keys_snoc. apply NoDup_app.
    split_and!; [done| |apply NoDup_singleton].
    intros x Hx ->%list_elem_of_singleton. done.
  - intros i q1 q2 Hi.
    destruct (decide (i < length d)) as [Hlt|Hge].
    + rewrite lookup_app_l in Hi by done.
      rewrite take_app_le by lia. by apply Hmirror.
    + apply lookup_lt_Some in Hi as Hlen.
      rewrite length_app in Hlen; simpl in Hlen.
      assert (i = length d) as -> by lia.
      rewrite list_lookup_middle in Hi by done. injection Hi as <- <-.
      by rewrite take_app_length.
Qed.

(** The deduplication loop copies a canonical mapping item by item. *)
Lemma dedup_fold_canonical acc l :
  canonical (acc ++ l) → foldl dedup_step acc l = acc ++ l.
Proof.
  revert acc. induction l as [|[p1 p2] l IH]; intros acc Hcan; simpl.
  - by rewrite app_nil_r.
  - destruct Hcan as [Hwf Hmirror].
    assert (dict_get acc p2 ≠ Some p1) as Hnew.
    { specialize (Hmirror (length acc) p1 p2).
      rewrite take_app_length in Hmirror.
      apply Hmirror. by apply list_lookup_middle. }
    assert (p1 ∉ keys acc) as Hfresh.
    { unfold dict_wf, keys in Hwf. rewrite fmap_app in Hwf.
      apply NoDup_app in Hwf as (_ & Hdisj & _).
      intros Hin. apply (Hdisj _ Hin). simpl. apply list_elem_of_here. }
    unfold items_contains. rewrite bool_decide_eq_false_2 by done.
    rewrite dict_set_fresh by done.
    rewrite IH; rewrite <- app_assoc; [done|]. by split.
Qed.

(** The loop turns a dict into a canonical one. *)
Lemma dedup_fold_is_canonical acc l :
  canonical acc → dict_wf l → (∀ k, k ∈ keys acc → k ∉ keys l) →
  canonical (foldl dedup_step acc l).
Proof.
  revert acc. induction l as [|[p1 p2] l IH]; intros acc Hcan Hwf Hdisj;
    simpl; [done|].
  unfold dict_wf, keys in Hwf; simpl in Hwf.
  apply NoDup_cons in Hwf as [Hp1 Hwf].
  assert (p1 ∉ keys acc) as Hfresh.
  { intros Hin. apply (Hdisj _ Hin). simpl. apply list_elem_of_here. }
  unfold items_contains. case_bool_decide as Hmem.
  - apply IH; [done..|]. intros k Hk Hkl.
    apply (Hdisj _ Hk). simpl. by apply list_elem_of_further.
  - rewrite dict_set_fresh by done.
    apply IH; [by apply canonical_snoc|done|].
    intros k. rewrite keys_snoc, elem_of_app, list_elem_of_singleton.
    intros [Hk| ->]; [|done]. intros Hkl.
    apply (Hdisj _ Hk). simpl. by apply list_elem_of_further.
Qed.

Lemma deduplicate_partners_canonical d :
  dict_wf d → canonical (deduplicate_partners d).
Proof.
  intros Hwf. apply dedup_fold_is_canonical; [apply canonical_nil|done|].
  intros k Hk. by apply elem_of_nil in Hk.
Qed.

Lemma deduplicate_partners_fixed d :
  canonical d → deduplicate_partners d = d.
Proof. intros Hcan. by apply (dedup_fold_canonical []). Qed.

Lemma dedup_fold_nonempty acc l :
  acc ≠ [] → foldl dedup_step acc l ≠ [].
Proof.
  revert acc. induction l as [|[p1 p2] l IH]; intros acc Hacc; simpl;
    [done|].
  apply IH. destruct (items_contains acc p2 p1); [done|].
  apply dict_set_nonempty.
Qed.

Lemma deduplicate_partners_truthy d :
  truthy (Some d) = true → truthy (Some (deduplicate_partners d)) = true.
Proof.
  destruct d as [|[p1 p2] l]; [done|]. intros _.
  unfold deduplicate_partners; simpl.
  pose proof (dedup_fold_nonempty [(p1, p2)] l) as Hne.
  destruct (foldl dedup_step [(p1, p2)] l); [|done].
  by exfalso; apply Hne.
Qed.

(** [check] returns its arguments unchanged, and only looks at the
    participants as a set of a given size. *)
Lemma check_ok participants partners r :
  check participants partners = mret r → r = (participants, partners).
Proof.
  unfold check. case_decide; [done|].
  destruct partners as [d|]; [|by intros [= <-]].
  destruct (truthy (Some d)); [|by intros [= <-]].
  case_decide; [done|].
  destruct (list_find _ _) as [[??]|]; [done|]. by intros [= <-].
Qed.

Lemma check_perm participants participants' partners r :
  participants ≡ₚ participants' →
  check participants partners = mret r →
  check participants' partners = mret (participants', partners).
Proof.
  intros Hperm.
  assert (length participants' = length participants) as Hlen
    by (by rewrite Hperm).
  unfold check. rewrite Hlen.
  case_decide; [done|].
  destruct partners as [d|]; [|done].
  destruct (truthy (Some d)); [|done].
  case_decide; [done|].
  destruct (list_find _ (unique_partners d)) as [[??]|] eqn:Hfind; [done|].
  intros _.
  destruct (list_find (λ p, p ∉ participants') _) as [[i p]|] eqn:Hfind';
    [|done].
  exfalso. apply list_find_Some in Hfind' as (Hi & Hp & _).
  apply list_find_None in Hfind. rewrite Forall_forall in Hfind.
  apply (Hfind p); [by eapply list_elem_of_lookup_2|]. by rewrite Hperm.
Qed.

(** C5. Running normalization again on its own output prints no warning
    and returns the same participants up to order and the same
    partnership mapping. *)
Theorem normalization_idempotent
    participants partners warnings participants' partners' :
  (∀ d, partners = Some d → dict_wf d) →
  validate_and_deduplicate_inputs participants partners
    = (warnings, mret (participants', partners')) →
  ∃ participants'',
    validate_and_deduplicate_inputs participants' partners'
      = ([], mret (participants'', partners'))
    ∧ participants'' ≡ₚ participants'.
Proof.
  intros Hwf. rewrite validate_unfold. intros [= _ Hcheck].
  apply check_ok in Hcheck as Hout. injection Hout as Hps Hpr.
  exists (list_of_set participants').
  assert (list_of_set participants' ≡ₚ participants') as Hperm.
  { unfold list_of_set at 1. rewrite set_order_perm.
    rewrite remove_dups_NoDup; [done|].
    rewrite Hps, deduplicate_participants. apply NoDup_list_of_set. }
  split; [|done].
  assert (length (list_of_set participants') = length participants')
    as Hlen by (by rewrite Hperm).
  assert (deduplicate participants' partners'
          = ([], (list_of_set participants', partners'))) as Hdedup.
  { unfold deduplicate at 1.
    rewrite (decide_False (P := _ < _)) by lia.
    destruct partners' as [d'|]; [|done].
    destruct (truthy (Some d')) eqn:Ht; [|done].
    assert (canonical d') as Hcan.
    { revert Hpr. unfold deduplicate.
      destruct partners as [d|]; [|done].
      destruct (truthy (Some d)) eqn:Ht'; simpl.
      - intros [= ->]. apply deduplicate_partners_canonical. by apply Hwf.
      - intros [= ->]. congruence. }
    rewrite deduplicate_partners_fixed by done.
    by rewrite (decide_False (P := _ < _)) by lia. }
  rewrite validate_unfold, Hdedup; simpl. f_equal.
  rewrite <- Hps, <- Hpr in Hcheck.
  by eapply check_perm.
Qed.

(** * Cycle assembly never indexes out of bounds *)

(** A shuffle reorders its argument. *)
Hypothesis shuffle_perm : ∀ g l, (shuffle g l).1 ≡ₚ l.

Lemma getitem_lt {A} (l : list A) i :
  i < length l → ∃ x, getitem l i = mret x.
Proof.
  intros Hi. apply lookup_lt_is_Some_2 in Hi as [x Hx].
  exists x. unfold getitem. by rewrite Hx.
Qed.

Lemma getlast_nonempty {A} (l : list A) :
  l ≠ [] → ∃ x, getlast l = mret x.
Proof.
  intros Hl. apply last_is_Some in Hl as [x Hx].
  exists x. unfold getlast. by rewrite Hx.
Qed.

Lemma setitem_lt {A} (l : list A) i x :
  i < length l → setitem l i x = mret (<[i:=x]> l).
Proof. intros Hi. unfold setitem. by rewrite decide_True. Qed.

Lemma swapitems_lt {A} (l : list A) i j :
  i < length l → j < length l →
  ∃ l', swapitems l i j = mret l' ∧ length l' = length l.
Proof.
  intros Hi Hj. unfold swapitems.
  destruct (getitem_lt l j Hj) as [xj ->].
  destruct (getitem_lt l i Hi) as [xi ->]. simpl.
  rewrite setitem_lt by done; simpl.
  rewrite setitem_lt by (by rewrite length_insert).
  eexists. split; [done|]. by rewrite !length_insert.
Qed.

Lemma swap_loop_in_bounds l target idxs :
  l ≠ [] → Forall (λ i, i < length l) idxs →
  ∃ l', swap_loop l target idxs = mret l' ∧ length l' = length l.
Proof.
  intros Hl. induction 1 as [|i idxs Hi _ IH]; simpl; [by eauto|].
  destruct (getitem_lt l i Hi) as [x ->]; simpl.
  case_decide; [|done].
  apply swapitems_lt; [|done]. destruct l; [done|simpl; lia].
Qed.

Lemma resolve_seam_in_bounds d last_ first_ l :
  l ≠ [] →
  ∃ l', resolve_seam d last_ first_ l = mret l' ∧ length l' = length l.
Proof.
  intros Hl. unfold resolve_seam. case_decide; [|by eauto].
  apply swap_loop_in_bounds; [done|].
  apply Forall_forall. intros i Hi%elem_of_seq. lia.
Qed.

Lemma resolve_conflicts_in_bounds partners sa sb :
  sa ≠ [] → sb ≠ [] →
  ∃ sa' sb', resolve_conflicts partners sa sb = mret (sa', sb')
             ∧ length sa' = length sa ∧ length sb' = length sb.
Proof.
  intros Ha Hb. unfold resolve_conflicts.
  destruct partners as [d|]; [|by eauto].
  destruct (truthy (Some d)); [|by eauto].
  destruct (getlast_nonempty sa Ha) as [a_last ->].
  destruct (getlast_nonempty sb Hb) as [b_last ->].
  destruct (getitem_lt sa 0) as [a_first ->]; [destruct sa; simpl; [done|lia]|].
  destruct (getitem_lt sb 0) as [b_first ->]; [destruct sb; simpl; [done|lia]|].
  simpl.
  destruct (resolve_seam_in_bounds d a_last b_first sb Hb) as (sb' & -> & ?).
  destruct (resolve_seam_in_bounds d b_last a_first sa Ha) as (sa' & -> & ?).
  simpl. by eauto.
Qed.

Lemma mapM_result_ok {A B} (f : A → result B) (l : list A) :
  Forall (λ x, ∃ y, f x = mret y) l → ∃ ys, mapM f l = mret ys.
Proof.
  induction 1 as [|x l [y Hy] _ [ys IH]]; simpl; [by eauto|].
  rewrite Hy; simpl. rewrite IH; simpl. by eauto.
Qed.

(** The comprehension over [range(len(l) - 1)] is in bounds for every
    list, the empty one included. *)
Lemma links_in_bounds l : ∃ es, links l = mret es.
Proof.
  unfold links. apply mapM_result_ok, Forall_forall.
  intros i Hi%elem_of_seq. simpl.
  destruct (getitem_lt l i) as [x ->]; [lia|].
  destruct (getitem_lt l (S i)) as [y ->]; [lia|].
  simpl. by eauto.
Qed.

Lemma cross_links_in_bounds sa sb :
  sa ≠ [] → sb ≠ [] → ∃ es, cross_links sa sb = mret es.
Proof.
  intros Ha Hb. unfold cross_links.
  destruct (getlast_nonempty sa Ha) as [a_last ->].
  destruct (getlast_nonempty sb Hb) as [b_last ->].
  destruct (getitem_lt sa 0) as [a_first ->]; [destruct sa; simpl; [done|lia]|].
  destruct (getitem_lt sb 0) as [b_first ->]; [destruct sb; simpl; [done|lia]|].
  simpl. by eauto.
Qed.

Lemma assemble_in_bounds partners sa sb :
  sa ≠ [] → sb ≠ [] → ∃ cycle, assemble partners sa sb = mret cycle.
Proof.
  intros Ha Hb. unfold assemble.
  destruct (resolve_conflicts_in_bounds partners sa sb Ha Hb)
    as (sa' & sb' & -> & Hla & Hlb); simpl.
  destruct (links_in_bounds sa') as [cycle_a ->].
  destruct (links_in_bounds sb') as [cycle_b ->]. simpl.
  destruct (cross_links_in_bounds sa' sb') as [cross ->].
  - intros ->. by destruct sa.
  - intros ->. by destruct sb.
  - simpl. by eauto.
Qed.

Lemma partition_step_filled partners st p :
  groups_filled st → groups_filled (partition_step partners st p).
Proof.
  intros [Ha Hb]. unfold partition_step.
  case_decide as Hp; [done|].
  destruct (partner_of partners p) as [partner|].
  - destruct (coin (gen st)) as [[] g]; split; simpl; intros H;
      by apply app_nil in H as [_ ?].
  - case_decide as Hlen; split; simpl; intros H.
    + by apply app_nil in H as [_ ?].
    + rewrite H in Hlen. simpl in Hlen.
      rewrite Ha by (by apply length_zero_iff_nil; lia).
      intros x y. rewrite !elem_of_union, !elem_of_singleton, !elem_of_empty.
      by intros [->|[]] [->|[]].
    + rewrite H in Hlen. simpl in Hlen. lia.
    + by apply app_nil in H as [_ ?].
Qed.

Lemma partition_step_assigned partners st p :
  p ∈ assigned (partition_step partners st p)
  ∧ assigned st ⊆ assigned (partition_step partners st p).
Proof using Type.
  clear set_order_perm shuffle_perm set_order shuffle.
  unfold partition_step. case_decide as Hp; [done|].
  destruct (partner_of partners p) as [partner|].
  - destruct (coin (gen st)) as [[] g]; simpl; set_solver.
  - case_decide; simpl; set_solver.
Qed.

Lemma partition_fold_filled partners participants st :
  groups_filled st →
  groups_filled (foldl (partition_step partners) st participants).
Proof.
  revert st. induction participants as [|p l IH]; intros st Hst; simpl;
    [done|].
  by apply IH, partition_step_filled.
Qed.

Lemma partition_fold_assigned partners participants st x :
  x ∈ participants ∨ x ∈ assigned st →
  x ∈ assigned (foldl (partition_step partners) st participants).
Proof.
  revert st. induction participants as [|p l IH]; intros st Hx; simpl.
  - destruct Hx as [Hx|Hx]; [by apply elem_of_nil in Hx|done].
  - destruct (partition_step_assigned partners st p) as [Hp Hsub].
    apply IH. destruct Hx as [[->|Hx]%elem_of_cons|Hx]; [by right|by left|].
    right. by apply Hsub.
Qed.

(** Two distinct participants are enough for both groups to be
    non-empty. *)
Lemma partition_nonempty participants partners g x y :
  x ∈ participants → y ∈ participants → x ≠ y →
  (partition_into_sets participants partners g).1.1 ≠ []
  ∧ (partition_into_sets participants partners g).1.2 ≠ [].
Proof using Type.
  clear set_order_perm shuffle_perm set_order shuffle.
  intros Hx Hy Hxy. unfold partition_into_sets, partition_loop; simpl.
  set (st0 := PartitionState [] [] ∅ g).
  assert (groups_filled st0) as Hst0 by (by split; simpl; set_solver).
  destruct (partition_fold_filled partners participants st0 Hst0)
    as [Ha Hb].
  pose proof (partition_fold_assigned partners participants st0 x
                (or_introl Hx)) as Hx'.
  pose proof (partition_fold_assigned partners participants st0 y
                (or_introl Hy)) as Hy'.
  split.
  - intros Hnil. rewrite (Ha Hnil) in Hx'. set_solver.
  - intros Hnil. by apply Hxy, (Hb Hnil).
Qed.

Lemma two_distinct (l : list participant) :
  NoDup l → 2 ≤ length l → ∃ x y, x ∈ l ∧ y ∈ l ∧ x ≠ y.
Proof.
  destruct l as [|x [|y l]]; simpl; [lia..|]. intros Hnd _.
  exists x, y. split_and!; [set_solver..|].
  apply NoDup_cons in Hnd as [Hx _]. set_solver.
Qed.

(** C10. On every input that validation accepts, both groups returned by
    [partition_into_sets] are non-empty and [create_secret_santa_cycle]
    returns a cycle: none of its list accesses raises [IndexError]. *)
Theorem cycle_assembly_in_bounds
    participants partners warnings participants' partners' g :
  validate_and_deduplicate_inputs participants partners
    = (warnings, mret (participants', partners')) →
  (partition_into_sets participants' partners' g).1.1 ≠ []
  ∧ (partition_into_sets participants' partners' g).1.2 ≠ []
  ∧ ∃ cycle,
      create_secret_santa_cycle participants' partners' g = mret cycle.
Proof.
  rewrite validate_unfold. intros [= _ Hcheck].
  apply check_ok in Hcheck as Hout. injection Hout as Hps Hpr.
  assert (2 < length participants') as Hlen.
  { destruct (decide (length participants' ≤ 2)) as [Hle|]; [|lia].
    rewrite Hps in Hle.
    apply (check_insufficient _ (deduplicate participants partners).2.2)
      in Hle.
    rewrite Hle in Hcheck. done. }
  assert (NoDup participants') as Hnd.
  { rewrite Hps, deduplicate_participants. apply NoDup_list_of_set. }
  destruct (two_distinct participants' Hnd) as (x & y & Hx & Hy & Hxy);
    [lia|].
  destruct (partition_nonempty participants' partners' g x y Hx Hy Hxy)
    as [Ha Hb].
  split_and!; [done..|].
  unfold create_secret_santa_cycle.
  destruct (partition_into_sets participants' partners' g)
    as [[sa sb] g1]; simpl in Ha, Hb.
  pose proof (shuffle_perm g1 sa) as Hsa.
  destruct (shuffle g1 sa) as [sa1 g2]; simpl in Hsa.
  pose proof (shuffle_perm g2 sb) as Hsb.
  destruct (shuffle g2 sb) as [sb1 g3]; simpl in Hsb.
  apply assemble_in_bounds.
  - intros ->. by apply Permutation_nil_l in Hsa.
  - intros ->. by apply Permutation_nil_l in Hsb.
Qed.

(** * Without partnerships the result is a cycle over the participants

    When no mapping is given (or an empty one), the one-directional mapping
    plays no part: the groups split the participants and the edges visit
    each of them once. *)

Lemma partner_of_falsy partners p :
  truthy partners = false → partner_of partners p = None.
Proof. unfold partner_of. by destruct partners as [[|??]|]. Qed.

Lemma partition_fold_unpartnered partners l st seen :
  truthy partners = false →
  NoDup (seen ++ l) →
  set_a st ++ set_b st ≡ₚ seen →
  (∀ x, x ∈ assigned st ↔ x ∈ seen) →
  set_a (foldl (partition_step partners) st l)
    ++ set_b (foldl (partition_step partners) st l) ≡ₚ seen ++ l.
Proof.
  intros Hfalsy. revert st seen.
  induction l as [|p l IH]; intros st seen Hnd Hperm Hassigned; simpl.
  - by rewrite app_nil_r.
  - assert (p ∉ assigned st) as Hp.
    { rewrite Hassigned. apply NoDup_app in Hnd as (_ & Hdisj & _).
      intros Hin. apply (Hdisj _ Hin). apply list_elem_of_here. }
    rewrite (cons_middle p seen l), app_assoc in Hnd |- *.
    apply IH; [done| |]; unfold partition_step;
      rewrite decide_False, partner_of_falsy by done;
      case_decide; simpl.
    + by rewrite <- Hperm, <- !app_assoc, (comm (++) [p]).
    + by rewrite <- Hperm, <- !app_assoc.
    + intros x. rewrite elem_of_union, elem_of_singleton, elem_of_app,
        list_elem_of_singleton, Hassigned. tauto.
    + intros x. rewrite elem_of_union, elem_of_singleton, elem_of_app,
        list_elem_of_singleton, Hassigned. tauto.
Qed.

Lemma partition_unpartnered participants partners g :
  truthy partners = false → NoDup participants →
  (partition_into_sets participants partners g).1.1
    ++ (partition_into_sets participants partners g).1.2 ≡ₚ participants.
Proof using Type.
  clear set_order_perm shuffle_perm set_order shuffle.
  intros Hfalsy Hnd. unfold partition_into_sets, partition_loop; simpl.
  apply (partition_fold_unpartnered partners participants _ []);
    [done..|]. simpl. set_solver.
Qed.

Lemma getitem_Some {A} (l : list A) i x :
  l !! i = Some x → getitem l i = mret x.
Proof. intros Hi. unfold getitem. by rewrite Hi. Qed.

(** The comprehension pairs every element with its successor. *)
Lemma links_from (l : list participant) n k :
  k + n = length l - 1 →
  mapM (λ i, x ← getitem l i; y ← getitem l (S i); mret (x, y)) (seq k n)
  = mret (zip (drop k l) (drop (S k) l)).
Proof.
  revert k. induction n as [|n IH]; intros k Hk; simpl.
  - rewrite (drop_ge l (S k)) by lia. by rewrite zip_with_nil_r.
  - destruct (lookup_lt_is_Some_2 l k) as [x Hx]; [lia|].
    destruct (lookup_lt_is_Some_2 l (S k)) as [y Hy]; [lia|].
    rewrite (getitem_Some l k x Hx), (getitem_Some l (S k) y Hy); simpl.
    rewrite IH by lia; simpl.
    by rewrite (drop_S l x k Hx), (drop_S l y (S k) Hy).
Qed.

Lemma links_zip l : links l = mret (zip l (tail l)).
Proof.
  unfold links. rewrite (links_from l (length l - 1) 0) by lia.
  by destruct l.
Qed.

Lemma givers_zip_tail (l : list participant) :
  (zip l (tail l)).*1 ++ option_list (last l) = l.
Proof.
  induction l as [|x [|y l] IH]; [done..|].
  rewrite last_cons_cons.
  change (x :: ((zip (y :: l) (tail (y :: l))).*1
                ++ option_list (last (y :: l))) = x :: y :: l).
  by rewrite IH.
Qed.

Lemma receivers_zip_tail (l : list participant) :
  (zip l (tail l)).*2 = tail l.
Proof. apply snd_zip. destruct l; simpl; lia. Qed.

Lemma zip_tail_no_self (l : list participant) :
  NoDup l → no_self_edge (zip l (tail l)).
Proof.
  unfold no_self_edge.
  induction l as [|x [|y l] IH]; intros Hnd; [by constructor..|].
  apply NoDup_cons in Hnd as [Hx Hnd]. simpl. constructor; [|by apply IH].
  simpl. intros ->. apply Hx, list_elem_of_here.
Qed.

Lemma occurrences_not_in p (l : list participant) :
  p ∉ l → occurrences p l = 0.
Proof.
  unfold occurrences. induction l as [|x l IH]; [done|].
  rewrite not_elem_of_cons. intros [Hne Hnot].
  rewrite filter_cons_False by done. by apply IH.
Qed.

Lemma occurrences_NoDup p (l : list participant) :
  NoDup l → p ∈ l → occurrences p l = 1.
Proof.
  intros Hnd. induction Hnd as [|x l Hx Hnd IH]; intros Hp.
  - by apply elem_of_nil in Hp.
  - unfold occurrences. destruct (decide (p = x)) as [->|Hne].
    + rewrite filter_cons_True by done. simpl.
      pose proof (occurrences_not_in x l Hx) as Hzero.
      unfold occurrences in Hzero. by rewrite Hzero.
    + rewrite filter_cons_False by done. apply IH.
      by apply elem_of_cons in Hp as [?|?].
Qed.

Lemma covers_once_perm participants (cycle : list edge) :
  NoDup participants →
  cycle.*1 ≡ₚ participants → cycle.*2 ≡ₚ participants →
  covers_once participants cycle.
Proof.
  intros Hnd Hg Hr. apply Forall_forall. intros p Hp.
  unfold occurrences. rewrite Hg, Hr.
  split; by apply occurrences_NoDup.
Qed.

Lemma givers_cycle (la lb : list edge) e1 e2 :
  (la ++ [e1; e2] ++ lb).*1 ≡ₚ (la.*1 ++ [e1.1]) ++ (lb.*1 ++ [e2.1]).
Proof.
  rewrite !fmap_app. simpl. rewrite <- !app_assoc. simpl.
  f_equiv. f_equiv. by rewrite <- Permutation_cons_append.
Qed.

Lemma receivers_cycle (la lb : list edge) e1 e2 :
  (la ++ [e1; e2] ++ lb).*2 ≡ₚ (e2.2 :: la.*2) ++ (e1.2 :: lb.*2).
Proof.
  rewrite !fmap_app. simpl.
  rewrite (Permutation_swap (e2.2) (e1.2)). symmetry.
  apply Permutation_middle.
Qed.

Lemma cross_links_ends sa sb a_first a_last b_first b_last :
  sa !! 0 = Some a_first → last sa = Some a_last →
  sb !! 0 = Some b_first → last sb = Some b_last →
  cross_links sa sb = mret [(a_last, b_first); (b_last, a_first)].
Proof.
  intros Hfa Hla Hfb Hlb. unfold cross_links, getlast.
  rewrite Hla, Hlb, (getitem_Some sa 0 a_first Hfa),
    (getitem_Some sb 0 b_first Hfb).
  done.
Qed.

(** Without partnerships step 3 is skipped. *)
Lemma assemble_unpartnered partners sa sb a_first a_last b_first b_last :
  truthy partners = false →
  sa !! 0 = Some a_first → last sa = Some a_last →
  sb !! 0 = Some b_first → last sb = Some b_last →
  assemble partners sa sb
  = mret (zip sa (tail sa) ++ [(a_last, b_first); (b_last, a_first)]
            ++ zip sb (tail sb)).
Proof.
  intros Hfalsy Hfa Hla Hfb Hlb. unfold assemble.
  assert (resolve_conflicts partners sa sb = mret (sa, sb)) as ->.
  { unfold resolve_conflicts. rewrite Hfalsy. by destruct partners. }
  simpl. rewrite !links_zip. simpl.
  by rewrite (cross_links_ends sa sb a_first a_last b_first b_last).
Qed.

Lemma head_tail (l : list participant) x :
  l !! 0 = Some x → x :: tail l = l.
Proof. destruct l; [done|]. by intros [= ->]. Qed.

(** With no partnerships and at least two distinct participants, the
    result is a set of edges in which every participant gives once and
    receives once, and nobody gives to themselves. *)
Lemma cycle_without_partners participants partners g :
  truthy partners = false → NoDup participants → 2 ≤ length participants →
  ∃ cycle,
    create_secret_santa_cycle participants partners g = mret cycle
    ∧ cycle.*1 ≡ₚ participants
    ∧ cycle.*2 ≡ₚ participants
    ∧ covers_once participants cycle
    ∧ no_self_edge cycle.
Proof.
  intros Hfalsy Hnd Hlen.
  destruct (two_distinct _ Hnd Hlen) as (x & y & Hx & Hy & Hxy).
  destruct (partition_nonempty participants partners g x y Hx Hy Hxy)
    as [Ha Hb].
  pose proof (partition_unpartnered participants partners g Hfalsy Hnd)
    as Hsplit.
  unfold create_secret_santa_cycle.
  destruct (partition_into_sets participants partners g) as [[sa0 sb0] g1];
    simpl in Ha, Hb, Hsplit.
  pose proof (shuffle_perm g1 sa0) as Hsa.
  destruct (shuffle g1 sa0) as [sa g2]; simpl in Hsa.
  pose proof (shuffle_perm g2 sb0) as Hsb.
  destruct (shuffle g2 sb0) as [sb g3]; simpl in Hsb.
  assert (sa ++ sb ≡ₚ participants) as Hall by (by rewrite Hsa, Hsb).
  assert (NoDup (sa ++ sb)) as Hnd' by (by rewrite Hall).
  apply NoDup_app in Hnd' as (Hnda & Hdisj & Hndb).
  assert (sa ≠ []) as Ha' by (by intros ->; apply Permutation_nil_l in Hsa).
  assert (sb ≠ []) as Hb' by (by intros ->; apply Permutation_nil_l in Hsb).
  destruct (proj2 (last_is_Some sa) Ha') as [a_last Hla].
  destruct (proj2 (last_is_Some sb) Hb') as [b_last Hlb].
  destruct (lookup_lt_is_Some_2 sa 0) as [a_first Hfa];
    [destruct sa; simpl; [done|lia]|].
  destruct (lookup_lt_is_Some_2 sb 0) as [b_first Hfb];
    [destruct sb; simpl; [done|lia]|].
  pose proof (givers_zip_tail sa) as Hga. rewrite Hla in Hga.
  pose proof (givers_zip_tail sb) as Hgb. rewrite Hlb in Hgb.
  simpl in Hga, Hgb.
  assert ((zip sa (tail sa) ++ [(a_last, b_first); (b_last, a_first)]
             ++ zip sb (tail sb)).*1 ≡ₚ participants) as Hgivers.
  { rewrite givers_cycle. cbn [fst]. by rewrite Hga, Hgb. }
  assert ((zip sa (tail sa) ++ [(a_last, b_first); (b_last, a_first)]
             ++ zip sb (tail sb)).*2 ≡ₚ participants) as Hreceivers.
  { rewrite receivers_cycle, !receivers_zip_tail. cbn [snd].
    by rewrite (head_tail sa a_first Hfa), (head_tail sb b_first Hfb). }
  eexists. split_and!;
    [by apply (assemble_unpartnered partners sa sb a_first a_last
                 b_first b_last)
    |done|done|by apply covers_once_perm|].
  unfold no_self_edge. rewrite !Forall_app. split_and!.
  - by apply zip_tail_no_self.
  - repeat constructor; simpl.
    + intros ->. apply (Hdisj b_first); [by apply last_Some_elem_of|].
      by eapply list_elem_of_lookup_2.
    + intros ->. apply (Hdisj a_first); [by eapply list_elem_of_lookup_2|].
      by apply last_Some_elem_of.
  - by apply zip_tail_no_self.
Qed.

(** * Further properties of [partition_into_sets] *)

Lemma partition_step_balanced partners st p :
  length (set_b st) ≤ length (set_a st) ≤ S (length (set_b st)) →
  length (set_b (partition_step partners st p))
  ≤ length (set_a (partition_step partners st p))
  ≤ S (length (set_b (partition_step partners st p))).
Proof.
  intros Hbal. unfold partition_step. case_decide; [done|].
  destruct (partner_of partners p) as [partner|].
  - destruct (coin (gen st)) as [[] g]; simpl; rewrite !length_app; simpl;
      lia.
  - case_decide; simpl; rewrite !length_app; simpl; lia.
Qed.

Lemma partition_fold_balanced partners participants st :
  length (set_b st) ≤ length (set_a st) ≤ S (length (set_b st)) →
  length (set_b (foldl (partition_step partners) st participants))
  ≤ length (set_a (foldl (partition_step partners) st participants))
  ≤ S (length (set_b (foldl (partition_step partners) st participants))).
Proof.
  revert st. induction participants as [|p l IH]; intros st Hst; simpl;
    [done|].
  by apply IH, partition_step_balanced.
Qed.

(** X1. Whatever the input and the coin tosses, group A has as many members
    as group B or exactly one more. *)
Theorem partition_balanced participants partners g :
  length (partition_into_sets participants partners g).1.2
  ≤ length (partition_into_sets participants partners g).1.1
  ≤ length (partition_into_sets participants partners g).1.2 + 1.
Proof.
  unfold partition_into_sets, partition_loop; simpl.
  rewrite Nat.add_1_r. apply partition_fold_balanced. simpl. lia.
Qed.

Lemma dict_get_Some_values d k v : dict_get d k = Some v → v ∈ values d.
Proof.
  unfold values. induction d as [|[k' v'] d IH]; simpl; [done|].
  case_decide.
  - intros [= ->]. apply list_elem_of_here.
  - intros Hget. apply list_elem_of_further. by apply IH.
Qed.

Lemma partner_of_values partners p q :
  partner_of partners p = Some q → q ∈ values (default [] partners).
Proof.
  unfold partner_of. destruct partners as [d|]; [|done].
  destruct (truthy (Some d)); [|done]. apply dict_get_Some_values.
Qed.

Lemma partition_step_placed partners st p :
  (∀ x, x ∈ assigned st ↔ x ∈ set_a st ++ set_b st) →
  ∀ x, x ∈ assigned (partition_step partners st p)
       ↔ x ∈ set_a (partition_step partners st p)
             ++ set_b (partition_step partners st p).
Proof.
  intros Hst x. unfold partition_step. case_decide; [done|].
  destruct (partner_of partners p) as [partner|].
  - destruct (coin (gen st)) as [[] g]; simpl;
      rewrite !elem_of_union, !elem_of_singleton, !elem_of_app,
        !list_elem_of_singleton, Hst, elem_of_app; tauto.
  - case_decide; simpl;
      rewrite !elem_of_union, !elem_of_singleton, !elem_of_app,
        ?list_elem_of_singleton, Hst, elem_of_app; tauto.
Qed.

Lemma partition_step_members partners st p x :
  x ∈ set_a (partition_step partners st p)
      ++ set_b (partition_step partners st p) →
  x ∈ set_a st ++ set_b st ∨ x = p ∨ x ∈ values (default [] partners).
Proof.
  unfold partition_step. case_decide; [by left|].
  destruct (partner_of partners p) as [partner|] eqn:Hpartner.
  - apply partner_of_values in Hpartner.
    destruct (coin (gen st)) as [[] g]; simpl;
      rewrite !elem_of_app, !list_elem_of_singleton;
      intros [[?| ->]|[?| ->]]; tauto.
  - case_decide; simpl; rewrite !elem_of_app, !list_elem_of_singleton; tauto.
Qed.

Lemma partition_fold_placed partners participants st :
  (∀ x, x ∈ assigned st ↔ x ∈ set_a st ++ set_b st) →
  ∀ x, x ∈ assigned (foldl (partition_step partners) st participants)
       ↔ x ∈ set_a (foldl (partition_step partners) st participants)
             ++ set_b (foldl (partition_step partners) st participants).
Proof.
  revert st. induction participants as [|p l IH]; intros st Hst; simpl;
    [done|].
  by apply IH, partition_step_placed.
Qed.

Lemma partition_fold_members partners participants st x :
  x ∈ set_a (foldl (partition_step partners) st participants)
      ++ set_b (foldl (partition_step partners) st participants) →
  x ∈ set_a st ++ set_b st ∨ x ∈ participants
  ∨ x ∈ values (default [] partners).
Proof.
  revert st. induction participants as [|p l IH]; intros st; simpl;
    [by left|].
  intros [Hx|[Hx|Hx]]%IH.
  - apply partition_step_members in Hx as [?|[->|?]];
      [by left|right; left; apply list_elem_of_here|by right; right].
  - right; left. by apply list_elem_of_further.
  - by right; right.
Qed.

(** X2. Every participant is placed in a group, and a group holds nobody
    but participants and values of the partnership mapping. *)
Theorem partition_members participants partners g x :
  (x ∈ participants →
   x ∈ (partition_into_sets participants partners g).1.1
       ++ (partition_into_sets participants partners g).1.2)
  ∧ (x ∈ (partition_into_sets participants partners g).1.1
         ++ (partition_into_sets participants partners g).1.2 →
     x ∈ participants ∨ x ∈ values (default [] partners)).
Proof.
  unfold partition_into_sets, partition_loop; simpl.
  set (st0 := PartitionState [] [] ∅ g). split.
  - intros Hx. apply (partition_fold_placed partners participants st0).
    + intros y. simpl. rewrite elem_of_empty, elem_of_nil. tauto.
    + apply partition_fold_assigned. by left.
  - intros [Hx|Hx]%partition_fold_members; [|done].
    by apply elem_of_nil in Hx.
Qed.

Lemma partition_step_repeat partners st p :
  p ∈ assigned st → partition_step partners st p = st.
Proof. intros Hp. unfold partition_step. by rewrite decide_True. Qed.

(** X3. A repeated entry of the participant list is skipped: the loop ends
    in the same state as without it. *)
Theorem partition_skips_repeats partners l l' p g :
  p ∈ l →
  partition_loop partners (l ++ p :: l') g
  = partition_loop partners (l ++ l') g.
Proof.
  intros Hp. unfold partition_loop. rewrite !foldl_app. simpl.
  f_equal. apply partition_step_repeat, partition_fold_assigned. by left.
Qed.

(** * A symmetric mapping is partitioned properly *)

Lemma dict_get_elem_of d k v : dict_wf d → (k, v) ∈ d → dict_get d k = Some v.
Proof.
  unfold dict_wf, keys. induction d as [|[k' v'] d IH]; simpl.
  - intros _ Hin. by apply elem_of_nil in Hin.
  - intros [Hk' Hnd]%NoDup_cons [[= -> ->]|Hin]%elem_of_cons.
    + by rewrite decide_True.
    + rewrite decide_False; [by apply IH|].
      intros ->. apply Hk'. apply list_elem_of_fmap. by exists (k, v).
Qed.

Lemma dict_get_Some_elem d k v : dict_get d k = Some v → (k, v) ∈ d.
Proof.
  induction d as [|[k' v'] d IH]; simpl; [done|].
  case_decide as Hk.
  - intros [= ->]. rewrite Hk. apply list_elem_of_here.
  - intros Hget. apply list_elem_of_further. by apply IH.
Qed.

Lemma partner_of_Some d p : partner_of (Some d) p = dict_get d p.
Proof. by destruct d. Qed.

Lemma perm_snoc_l (a b : list participant) p :
  (a ++ [p]) ++ b ≡ₚ p :: (a ++ b).
Proof. rewrite <- app_assoc. symmetry. apply Permutation_middle. Qed.

Lemma perm_snoc_r (a b : list participant) p :
  a ++ (b ++ [p]) ≡ₚ p :: (a ++ b).
Proof. by rewrite app_assoc, <- Permutation_cons_append. Qed.

Lemma partition_step_proper partners everyone st p :
  (∀ x y, partner_of partners x = Some y → partner_of partners y = Some x) →
  (∀ x y, partner_of partners x = Some y → x ≠ y) →
  (∀ x y, partner_of partners x = Some y → y ∈ everyone) →
  p ∈ everyone →
  groups_proper partners everyone st →
  groups_proper partners everyone (partition_step partners st p).
Proof using Type.
  clear set_order_perm shuffle_perm set_order shuffle.
  intros Hsym Hirr Hin Hp (Hnd & Has & Hopp & Hsub).
  unfold partition_step. case_decide as Hnew; [done|].
  assert (p ∉ set_a st ++ set_b st) as Hp_new by (by rewrite <- Has).
  destruct (partner_of partners p) as [q|] eqn:Hq.
  - assert (p ≠ q) as Hpq by (by eapply Hirr).
    pose proof (Hsym _ _ Hq) as Hq'.
    assert (q ∉ set_a st ++ set_b st) as Hq_new.
    { destruct (Hopp _ _ Hq') as [Hqa Hqb]. set_solver. }
    assert (q ∈ everyone) as Hq_in by (by eapply Hin).
    destruct (coin (gen st)) as [[] g]; unfold groups_proper; simpl;
      split_and!.
    + rewrite perm_snoc_l, perm_snoc_r. apply NoDup_cons. split; [|by apply NoDup_cons].
      set_solver.
    + intros x. rewrite perm_snoc_l, perm_snoc_r. set_solver.
    + intros x y Hxy. destruct (Hopp _ _ Hxy) as [Hxa Hxb].
      split; intros [Hx| ->%list_elem_of_singleton]%elem_of_app;
        rewrite elem_of_app, list_elem_of_singleton; [by auto| |by auto|];
        right; congruence.
    + intros x. rewrite perm_snoc_l, perm_snoc_r. set_solver.
    + rewrite perm_snoc_l, perm_snoc_r. apply NoDup_cons. split; [|by apply NoDup_cons].
      set_solver.
    + intros x. rewrite perm_snoc_l, perm_snoc_r. set_solver.
    + intros x y Hxy. destruct (Hopp _ _ Hxy) as [Hxa Hxb].
      split; intros [Hx| ->%list_elem_of_singleton]%elem_of_app;
        rewrite elem_of_app, list_elem_of_singleton; [by auto| |by auto|];
        right; congruence.
    + intros x. rewrite perm_snoc_l, perm_snoc_r. set_solver.
  - case_decide; unfold groups_proper; simpl; split_and!.
    + rewrite perm_snoc_l. by apply NoDup_cons.
    + intros x. rewrite perm_snoc_l. set_solver.
    + intros x y Hxy. destruct (Hopp _ _ Hxy) as [Hxa Hxb].
      split; [intros [Hx| ->%list_elem_of_singleton]%elem_of_app|intros Hx];
        [by auto|congruence|]. apply elem_of_app. by auto.
    + intros x. rewrite perm_snoc_l. set_solver.
    + rewrite perm_snoc_r. by apply NoDup_cons.
    + intros x. rewrite perm_snoc_r. set_solver.
    + intros x y Hxy. destruct (Hopp _ _ Hxy) as [Hxa Hxb].
      split; [intros Hx|intros [Hx| ->%list_elem_of_singleton]%elem_of_app];
        [|by auto|congruence]. apply elem_of_app. by auto.
    + intros x. rewrite perm_snoc_r. set_solver.
Qed.

Lemma partition_fold_proper partners everyone l st :
  (∀ x y, partner_of partners x = Some y → partner_of partners y = Some x) →
  (∀ x y, partner_of partners x = Some y → x ≠ y) →
  (∀ x y, partner_of partners x = Some y → y ∈ everyone) →
  (∀ x, x ∈ l → x ∈ everyone) →
  groups_proper partners everyone st →
  groups_proper partners everyone (foldl (partition_step partners) st l).
Proof.
  intros Hsym Hirr Hin. revert st.
  induction l as [|p l IH]; intros st Hl Hst; simpl; [done|].
  apply IH.
  - intros x Hx. apply Hl. by apply list_elem_of_further.
  - apply partition_step_proper; [done..| |done].
    apply Hl, list_elem_of_here.
Qed.

(** X4. When the mapping is symmetric, pairs nobody with themselves and
    names participants only, the two groups are disjoint, hold every
    participant exactly once and separate the two members of every
    partnership. *)
Theorem partition_symmetric participants d g :
  NoDup participants →
  dict_wf d →
  Forall (λ pr, prod_swap pr ∈ d ∧ pr.1 ≠ pr.2 ∧ pr.1 ∈ participants) d →
  (partition_into_sets participants (Some d) g).1.1
    ++ (partition_into_sets participants (Some d) g).1.2 ≡ₚ participants
  ∧ groups_disjoint (partition_into_sets participants (Some d) g).1.1
      (partition_into_sets participants (Some d) g).1.2
  ∧ groups_separate (Some d)
      (partition_into_sets participants (Some d) g).1.1
      (partition_into_sets participants (Some d) g).1.2.
Proof using Type.
  clear set_order_perm shuffle_perm set_order shuffle.
  intros Hnd Hwf Hd. rewrite Forall_forall in Hd.
  assert (∀ x y, partner_of (Some d) x = Some y →
                 partner_of (Some d) y = Some x) as Hsym.
  { intros x y. rewrite !partner_of_Some. intros Hxy%dict_get_Some_elem.
    apply dict_get_elem_of; [done|]. by destruct (Hd _ Hxy) as (? & _). }
  assert (∀ x y, partner_of (Some d) x = Some y → x ≠ y) as Hirr.
  { intros x y. rewrite partner_of_Some. intros Hxy%dict_get_Some_elem.
    by destruct (Hd _ Hxy) as (_ & ? & _). }
  assert (∀ x y, partner_of (Some d) x = Some y → y ∈ participants) as Hin.
  { intros x y Hxy%Hsym. rewrite partner_of_Some in Hxy.
    apply dict_get_Some_elem in Hxy. by destruct (Hd _ Hxy) as (_ & _ & ?). }
  unfold partition_into_sets, partition_loop; simpl.
  set (st0 := PartitionState [] [] ∅ g).
  assert (groups_proper (Some d) participants st0) as Hst0.
  { unfold groups_proper; simpl. split_and!; [constructor|set_solver..]. }
  destruct (partition_fold_proper (Some d) participants participants st0
              Hsym Hirr Hin (λ x Hx, Hx) Hst0)
    as (Hnd' & Has & Hopp & Hsub).
  set (st := foldl (partition_step (Some d)) st0 participants) in *.
  split_and!.
  - apply NoDup_Permutation; [done..|]. intros x. split; [apply Hsub|].
    intros Hx. apply Has. apply partition_fold_assigned. by left.
  - apply NoDup_app in Hnd' as (_ & Hdisj & _). by apply Forall_forall.
  - apply NoDup_app in Hnd' as (_ & Hdisj & _).
    apply Forall_forall. intros [x y] Hxy. simpl.
    apply (dict_get_elem_of d x y Hwf) in Hxy.
    rewrite <- partner_of_Some in Hxy.
    destruct (Hopp _ _ Hxy) as [Hxa Hxb].
    split; intros [Hx Hy].
    + by apply (Hdisj y); [|apply Hxa].
    + by apply (Hdisj y); [apply Hxb|].
Qed.

(** * Further properties of [create_secret_santa_cycle] *)

Lemma swapitems_spec (l : list participant) i j xi xj :
  l !! i = Some xi → l !! j = Some xj →
  swapitems l i j = mret (<[j:=xi]> (<[i:=xj]> l)).
Proof.
  intros Hi Hj. unfold swapitems.
  rewrite (getitem_Some l j xj Hj), (getitem_Some l i xi Hi). simpl.
  rewrite setitem_lt by (by eapply lookup_lt_Some). simpl.
  rewrite setitem_lt; [done|].
  rewrite length_insert. by eapply lookup_lt_Some.
Qed.

Lemma swap_loop_perm l target idxs :
  Forall (λ i, i < length l) idxs → l ≠ [] →
  ∃ l', swap_loop l target idxs = mret l' ∧ l' ≡ₚ l.
Proof.
  intros Hidxs Hl. induction Hidxs as [|i idxs Hi _ IH]; simpl; [by eauto|].
  destruct (lookup_lt_is_Some_2 l i Hi) as [x Hx].
  destruct (lookup_lt_is_Some_2 l 0) as [x0 Hx0];
    [destruct l; simpl; [done|lia]|].
  rewrite (getitem_Some l i x Hx). simpl.
  case_decide; [|done].
  rewrite (swapitems_spec l 0 i x0 x Hx0 Hx).
  eexists. split; [done|]. by apply Permutation_insert_swap.
Qed.

Lemma seq_lt_length (l : list participant) :
  Forall (λ i, i < length l) (seq 1 (length l - 1)).
Proof. apply Forall_forall. intros i Hi%elem_of_seq. lia. Qed.

Lemma resolve_seam_perm d last_ first_ l :
  l ≠ [] → ∃ l', resolve_seam d last_ first_ l = mret l' ∧ l' ≡ₚ l.
Proof.
  intros Hl. unfold resolve_seam. case_decide; [|by eauto].
  apply swap_loop_perm; [apply seq_lt_length|done].
Qed.

Lemma resolve_conflicts_perm partners sa sb :
  sa ≠ [] → sb ≠ [] →
  ∃ sa' sb', resolve_conflicts partners sa sb = mret (sa', sb')
             ∧ sa' ≡ₚ sa ∧ sb' ≡ₚ sb.
Proof.
  intros Ha Hb. unfold resolve_conflicts.
  destruct partners as [d|]; [|by eauto].
  destruct (truthy (Some d)); [|by eauto].
  destruct (getlast_nonempty sa Ha) as [a_last ->].
  destruct (getlast_nonempty sb Hb) as [b_last ->].
  destruct (getitem_lt sa 0) as [a_first ->];
    [destruct sa; simpl; [done|lia]|].
  destruct (getitem_lt sb 0) as [b_first ->];
    [destruct sb; simpl; [done|lia]|].
  simpl.
  destruct (resolve_seam_perm d a_last b_first sb Hb) as (sb' & -> & ?).
  destruct (resolve_seam_perm d b_last a_first sa Ha) as (sa' & -> & ?).
  simpl. by eauto.
Qed.

Lemma chain_zip_tail (l : list participant) x z :
  last l = Some x → chain l z = zip l (tail l) ++ [(x, z)].
Proof.
  unfold chain. induction l as [|y [|y' l] IH]; [done|by intros [= ->]|].
  rewrite last_cons_cons. intros Hlast. specialize (IH Hlast).
  simpl in *. by rewrite IH.
Qed.

Lemma chain_app (l1 l2 : list participant) y z :
  l2 !! 0 = Some y → chain (l1 ++ l2) z = chain l1 y ++ chain l2 z.
Proof.
  intros Hy. destruct l2 as [|y' l2]; [done|]. injection Hy as ->.
  unfold chain. induction l1 as [|x [|x' l1] IH]; [done..|].
  simpl in *. by rewrite IH.
Qed.

Lemma circular_chain (l : list participant) x :
  l !! 0 = Some x → circular l = chain l x.
Proof. unfold circular, chain. rewrite head_lookup. by intros ->. Qed.

(** The edges built in steps 4 and 5 are the round trip through group A
    followed by group B. *)
Lemma cycle_edges_circular sa sb a_first a_last b_first b_last :
  sa !! 0 = Some a_first → last sa = Some a_last →
  sb !! 0 = Some b_first → last sb = Some b_last →
  zip sa (tail sa) ++ [(a_last, b_first); (b_last, a_first)]
    ++ zip sb (tail sb)
  ≡ₚ circular (sa ++ sb).
Proof.
  intros Hfa Hla Hfb Hlb.
  rewrite (circular_chain (sa ++ sb) a_first)
    by (by apply lookup_app_l_Some).
  rewrite (chain_app sa sb b_first a_first Hfb).
  rewrite (chain_zip_tail sa a_last b_first Hla),
    (chain_zip_tail sb b_last a_first Hlb).
  rewrite <- !app_assoc. f_equiv. simpl. f_equiv.
  by rewrite <- Permutation_cons_append.
Qed.

Lemma ends_of_nonempty (l : list participant) :
  l ≠ [] → ∃ x y, l !! 0 = Some x ∧ last l = Some y.
Proof.
  intros Hl. destruct (proj2 (last_is_Some l) Hl) as [y Hy].
  destruct (lookup_lt_is_Some_2 l 0) as [x Hx];
    [destruct l; simpl; [done|lia]|].
  by eauto.
Qed.

Lemma assemble_circular partners sa sb :
  sa ≠ [] → sb ≠ [] →
  ∃ cycle sa' sb',
    assemble partners sa sb = mret cycle
    ∧ sa' ≡ₚ sa ∧ sb' ≡ₚ sb ∧ cycle ≡ₚ circular (sa' ++ sb').
Proof.
  intros Ha Hb. unfold assemble.
  destruct (resolve_conflicts_perm partners sa sb Ha Hb)
    as (sa' & sb' & -> & Hsa & Hsb). simpl.
  assert (sa' ≠ []) as Ha'
    by (by intros ->; apply Permutation_nil_l in Hsa).
  assert (sb' ≠ []) as Hb'
    by (by intros ->; apply Permutation_nil_l in Hsb).
  destruct (ends_of_nonempty sa' Ha') as (a_first & a_last & Hfa & Hla).
  destruct (ends_of_nonempty sb' Hb') as (b_first & b_last & Hfb & Hlb).
  rewrite !links_zip. simpl.
  rewrite (cross_links_ends sa' sb' a_first a_last b_first b_last)
    by done. simpl.
  eexists _, sa', sb'. split_and!; [done..|].
  by apply cycle_edges_circular.
Qed.

(** X5. As soon as the participant list has two different entries, the
    function returns, whatever the mapping and the random source, and its
    edges are the round trip through some arrangement of the members of the
    two groups: every member gives to the next one and the last one to the
    first. *)
Theorem cycle_is_round_trip participants partners g x y :
  x ∈ participants → y ∈ participants → x ≠ y →
  ∃ cycle l,
    create_secret_santa_cycle participants partners g = mret cycle
    ∧ l ≡ₚ (partition_into_sets participants partners g).1.1
            ++ (partition_into_sets participants partners g).1.2
    ∧ cycle ≡ₚ circular l.
Proof.
  intros Hx Hy Hxy.
  destruct (partition_nonempty participants partners g x y Hx Hy Hxy)
    as [Ha Hb].
  unfold create_secret_santa_cycle.
  destruct (partition_into_sets participants partners g) as [[sa0 sb0] g1];
    simpl in Ha, Hb |- *.
  pose proof (shuffle_perm g1 sa0) as Hsa.
  destruct (shuffle g1 sa0) as [sa g2]; simpl in Hsa.
  pose proof (shuffle_perm g2 sb0) as Hsb.
  destruct (shuffle g2 sb0) as [sb g3]; simpl in Hsb.
  destruct (assemble_circular partners sa sb)
    as (cycle & sa' & sb' & Hcycle & Hsa' & Hsb' & Hround).
  - intros ->. by apply Permutation_nil_l in Hsa.
  - intros ->. by apply Permutation_nil_l in Hsb.
  - exists cycle, (sa' ++ sb'). split_and!; [done| |done].
    by rewrite Hsa', Hsb', Hsa, Hsb.
Qed.

Lemma swap_loop_finds l target idxs i x :
  Forall (λ j, j < length l) idxs →
  i ∈ idxs → l !! i = Some x → Some x ≠ target →
  ∃ l' x', swap_loop l target idxs = mret l'
           ∧ l' !! 0 = Some x' ∧ Some x' ≠ target.
Proof.
  intros Hidxs. revert i x.
  induction Hidxs as [|j idxs Hj _ IH]; intros i x Hi Hx Hne.
  - by apply elem_of_nil in Hi.
  - simpl. destruct (lookup_lt_is_Some_2 l j Hj) as [xj Hxj].
    destruct (lookup_lt_is_Some_2 l 0) as [x0 Hx0]; [lia|].
    rewrite (getitem_Some l j xj Hxj). simpl.
    case_decide as Hxj_ne.
    + rewrite (swapitems_spec l 0 j x0 xj Hx0 Hxj).
      eexists _, xj. split_and!; [done| |done].
      destruct (decide (j = 0)) as [->|Hj0].
      * rewrite list_lookup_insert_eq; [congruence|].
        by rewrite length_insert.
      * rewrite list_lookup_insert_ne by done.
        apply list_lookup_insert_eq. lia.
    + apply elem_of_cons in Hi as [->|Hi]; [congruence|].
      by apply (IH i x).
Qed.

(** X6. When the last of one group is mapped to the first of the other
    group and that group has some other member, the swap brings a member
    to the front that is not this partner, and the group keeps its
    members. *)
Theorem resolve_seam_swaps d last_ first_ l x :
  dict_get d last_ = Some first_ →
  x ∈ tail l → x ≠ first_ →
  ∃ l' x', resolve_seam d last_ first_ l = mret l'
           ∧ l' ≡ₚ l ∧ l' !! 0 = Some x' ∧ x' ≠ first_.
Proof.
  intros Hd Hx Hne.
  assert (l ≠ []) as Hl by (by intros ->; apply elem_of_nil in Hx).
  destruct (resolve_seam_perm d last_ first_ l Hl) as (l' & Hl' & Hperm).
  apply list_elem_of_lookup_1 in Hx as [i Hi].
  assert (l !! S i = Some x) as Hi' by (by destruct l).
  destruct (swap_loop_finds l (Some first_) (seq 1 (length l - 1)) (S i) x)
    as (l'' & x' & Hloop & Hx' & Hne'); [apply seq_lt_length| |done| |].
  - apply elem_of_seq. apply lookup_lt_Some in Hi'. lia.
  - congruence.
  - unfold resolve_seam in Hl' |- *. rewrite decide_True in Hl' |- * by done.
    rewrite Hd in Hl' |- *. rewrite Hloop in Hl' |- *.
    injection Hl' as <-.
    exists l'', x'. split_and!; [done..|congruence].
Qed.

Lemma swap_loop_stuck l target idxs :
  Forall (λ i, ∃ x, l !! i = Some x ∧ Some x = target) idxs →
  swap_loop l target idxs = mret l.
Proof.
  induction 1 as [|i idxs (x & Hx & Heq) _ IH]; simpl; [done|].
  rewrite (getitem_Some l i x Hx). simpl. by rewrite decide_False by tauto.
Qed.

(** X7. When every other member of the group is that same partner, in
    particular when the group has a single member, the group is left as it
    is and the conflict stays. *)
Theorem resolve_seam_stuck d last_ first_ l :
  dict_get d last_ = Some first_ →
  Forall (λ x, x = first_) (tail l) →
  resolve_seam d last_ first_ l = mret l.
Proof.
  intros Hd Hall. unfold resolve_seam. case_decide; [|done].
  apply swap_loop_stuck, Forall_forall.
  intros i [Hi1 Hi2]%elem_of_seq.
  destruct (lookup_lt_is_Some_2 l i) as [x Hx]; [lia|].
  exists x. split; [done|]. rewrite Hd. f_equal.
  rewrite Forall_forall in Hall. apply Hall.
  destruct l as [|x0 l]; [done|]. destruct i as [|i]; [lia|].
  simpl in Hx |- *. by eapply list_elem_of_lookup_2.
Qed.

(** * Further properties of [validate_and_deduplicate_inputs] *)

Lemma check_accepts_iff participants partners :
  (∃ out, check participants partners = mret out)
  ↔ 2 < length participants
    ∧ distinct_count (partner_ids partners) ≤ length participants `div` 2 * 2
    ∧ ∀ x, x ∈ partner_ids partners → x ∈ participants.
Proof.
  unfold check. case_decide as Hlen.
  { split; [by intros [??]|]. intros (? & _). lia. }
  destruct partners as [d|].
  2:{ split; [intros _|by eauto]. split_and!; [lia|by apply Nat.le_0_l|].
      intros x Hx. by apply elem_of_nil in Hx. }
  destruct (truthy (Some d)) eqn:Ht.
  2:{ rewrite (partner_ids_falsy _ Ht).
      split; [intros _|by eauto]. split_and!; [lia|by apply Nat.le_0_l|].
      intros x Hx. by apply elem_of_nil in Hx. }
  rewrite length_unique_partners. case_decide as Hmax.
  { split; [by intros [??]|]. intros (_ & ? & _). lia. }
  destruct (list_find _ _) as [[i p]|] eqn:Hfind.
  - apply list_find_Some in Hfind as (Hi & Hp & _).
    split; [by intros [??]|]. intros (_ & _ & Hknown). exfalso.
    apply Hp, Hknown, elem_of_unique_partners.
    by eapply list_elem_of_lookup_2.
  - apply list_find_None in Hfind. rewrite Forall_forall in Hfind.
    split; [intros _|by eauto]. split_and!; [lia..|].
    intros x Hx%elem_of_unique_partners.
    destruct (decide (x ∈ participants)) as [|Hnot]; [done|].
    by destruct (Hfind x Hx).
Qed.

(** X8. The input is accepted exactly when it has at least three distinct
    participants, the deduplicated mapping involves at most
    2 * floor(n / 2) distinct individuals, and each of them is a
    participant. *)
Theorem validate_accepts_iff participants partners :
  (∃ out, (validate_and_deduplicate_inputs participants partners).2
          = mret out)
  ↔ 3 ≤ distinct_count participants
    ∧ distinct_count (partner_ids (deduplicate participants partners).2.2)
      ≤ 2 * (distinct_count participants `div` 2)
    ∧ ∀ x, x ∈ partner_ids (deduplicate participants partners).2.2 →
           x ∈ participants.
Proof.
  rewrite validate_result, check_accepts_iff.
  rewrite deduplicate_participants, length_list_of_set.
  setoid_rewrite elem_of_list_of_set.
  rewrite (Nat.mul_comm _ 2). done.
Qed.

(** X9. The participant list that validation returns has no repeated entry,
    has the members of the input list and at least three of them. *)
Theorem validate_participants participants partners warnings
    participants' partners' :
  validate_and_deduplicate_inputs participants partners
    = (warnings, mret (participants', partners')) →
  NoDup participants'
  ∧ (∀ x, x ∈ participants' ↔ x ∈ participants)
  ∧ length participants' = distinct_count participants
  ∧ 3 ≤ length participants'.
Proof.
  rewrite validate_unfold. intros [= _ Hcheck].
  apply check_ok in Hcheck as Hout. injection Hout as Hps Hpr.
  assert (∃ out, check (deduplicate participants partners).2.1
                   (deduplicate participants partners).2.2 = mret out)
    as (Hlen & _)%check_accepts_iff by eauto.
  rewrite <- Hps in Hlen. rewrite deduplicate_participants in Hps.
  subst participants'. split_and!.
  - apply NoDup_list_of_set.
  - intros x. apply elem_of_list_of_set.
  - apply length_list_of_set.
  - lia.
Qed.

Lemma length_remove_dups_le (l : list participant) :
  length (remove_dups l) ≤ length l.
Proof.
  induction l as [|x l IH]; simpl; [done|]. case_decide; simpl; lia.
Qed.

Lemma remove_dups_length_NoDup (l : list participant) :
  length (remove_dups l) = length l ↔ NoDup l.
Proof.
  split; [|by intros ->%remove_dups_NoDup].
  induction l as [|x l IH]; simpl; [constructor|].
  pose proof (length_remove_dups_le l). case_decide; simpl; [lia|].
  intros [= Hlen]. apply NoDup_cons. auto.
Qed.

Lemma length_dict_set_le d k v : length (dict_set d k v) ≤ S (length d).
Proof.
  induction d as [|[k' v'] d IH]; simpl; [done|].
  case_decide; simpl; lia.
Qed.

Lemma dedup_fold_length_le acc l :
  length (foldl dedup_step acc l) ≤ length acc + length l.
Proof.
  revert acc. induction l as [|[p1 p2] l IH]; intros acc; simpl; [lia|].
  destruct (items_contains acc p2 p1).
  - specialize (IH acc). lia.
  - specialize (IH (dict_set acc p1 p2)).
    pose proof (length_dict_set_le acc p1 p2). lia.
Qed.

(** If the loop drops no item, it copies its input. *)
Lemma dedup_fold_length_eq acc l :
  dict_wf (acc ++ l) →
  length (foldl dedup_step acc l) = length acc + length l →
  foldl dedup_step acc l = acc ++ l.
Proof.
  revert acc. induction l as [|[p1 p2] l IH]; intros acc Hwf Hlen; simpl.
  - by rewrite app_nil_r.
  - simpl in Hlen. destruct (items_contains acc p2 p1).
    + pose proof (dedup_fold_length_le acc l). lia.
    + assert (p1 ∉ keys acc) as Hfresh.
      { unfold dict_wf, keys in Hwf. rewrite fmap_app in Hwf.
        apply NoDup_app in Hwf as (_ & Hdisj & _).
        intros Hin. apply (Hdisj _ Hin). simpl. apply list_elem_of_here. }
      rewrite dict_set_fresh in Hlen |- * by done.
      rewrite (cons_middle _ acc l), app_assoc in Hwf |- *.
      apply IH; [done|]. rewrite Hlen, length_app. simpl. lia.
Qed.

(** X10. For a dict, no warning is printed exactly when no participant is
    repeated and no item of the mapping is the mirror image of an earlier
    one. *)
Theorem no_warning_iff participants partners :
  (∀ d, partners = Some d → dict_wf d) →
  (validate_and_deduplicate_inputs participants partners).1 = []
  ↔ NoDup participants ∧ ∀ d, partners = Some d → canonical d.
Proof.
  intros Hwf. rewrite validate_unfold. simpl.
  rewrite <- remove_dups_length_NoDup.
  pose proof (length_remove_dups_le participants) as Hle.
  unfold deduplicate. rewrite length_list_of_set. unfold distinct_count.
  destruct partners as [d|].
  2:{ simpl. case_decide; split; [done|intros [? _]; lia|
        intros _; split; [lia|done]|done]. }
  specialize (Hwf d eq_refl).
  destruct (truthy (Some d)) eqn:Ht; simpl.
  2:{ destruct d; [|done].
      case_decide; split; [done|intros [? _]; lia|
        intros _; split; [lia|intros ? [= <-]; apply canonical_nil]|done]. }
  pose proof (dedup_fold_length_le [] d) as Hle'. simpl in Hle'.
  fold (deduplicate_partners d) in Hle'.
  split.
  - intros [H1 H2]%app_eq_nil.
    case_decide; [done|]. case_decide; [done|].
    split; [lia|]. intros ? [= <-].
    assert (deduplicate_partners d = d) as <-.
    { apply (dedup_fold_length_eq [] d); [done|]. simpl.
      fold (deduplicate_partners d). lia. }
    by apply deduplicate_partners_canonical.
  - intros [Hlen Hcan]. specialize (Hcan d eq_refl).
    rewrite (deduplicate_partners_fixed d Hcan).
    rewrite !decide_False by lia. done.
Qed.

(** * Deduplication of the mapping, and [read_partners] *)

Lemma dict_wf_app_cons acc (x : participant * participant) l :
  dict_wf (acc ++ x :: l) → dict_wf (acc ++ l) ∧ x.1 ∉ keys acc.
Proof.
  unfold dict_wf, keys. rewrite !fmap_app, fmap_cons.
  rewrite !NoDup_app, NoDup_cons.
  intros (Hacc & Hdisj & Hx & Hl). split_and!; [done| |done|].
  - intros y Hy Hyl. apply (Hdisj y Hy). by apply list_elem_of_further.
  - intros Hin. apply (Hdisj _ Hin). apply list_elem_of_here.
Qed.

Lemma dedup_fold_items acc l :
  dict_wf (acc ++ l) →
  (∀ pr, pr ∈ foldl dedup_step acc l → pr ∈ acc ∨ pr ∈ l)
  ∧ (∀ pr, pr ∈ acc → pr ∈ foldl dedup_step acc l)
  ∧ (∀ pr, pr ∈ l →
           pr ∈ foldl dedup_step acc l
           ∨ prod_swap pr ∈ foldl dedup_step acc l).
Proof.
  revert acc. induction l as [|[p1 p2] l IH]; intros acc Hwf; simpl.
  - split_and!; [by auto|done|]. intros pr Hpr. by apply elem_of_nil in Hpr.
  - destruct (dict_wf_app_cons acc (p1, p2) l Hwf) as [Hwf' Hfresh].
    simpl in Hfresh. unfold items_contains. case_bool_decide as Hmem.
    + destruct (IH acc Hwf') as (Hsub & Hacc & Hl). split_and!.
      * intros pr [?|?]%Hsub; [by left|right; by apply list_elem_of_further].
      * done.
      * intros pr [->|Hpr]%elem_of_cons; [|by apply Hl].
        right. apply Hacc. by apply dict_get_Some_elem.
    + rewrite dict_set_fresh by done.
      rewrite (cons_middle _ acc l), app_assoc in Hwf.
      destruct (IH _ Hwf) as (Hsub & Hacc & Hl). split_and!.
      * intros pr [[?| ->%list_elem_of_singleton]%elem_of_app|?]%Hsub;
          [by left|right; apply list_elem_of_here
          |right; by apply list_elem_of_further].
      * intros pr Hpr. apply Hacc, elem_of_app. by left.
      * intros pr [->|Hpr]%elem_of_cons; [|by apply Hl].
        left. apply Hacc, elem_of_app. right. apply list_elem_of_here.
Qed.

Lemma canonical_no_mirror d i j a b :
  canonical d → d !! i = Some (a, b) → d !! j = Some (b, a) → ¬ i < j.
Proof.
  intros [Hwf Hmirror] Hi Hj Hlt.
  apply (Hmirror j b a Hj). apply dict_get_elem_of.
  - unfold dict_wf, keys in Hwf |- *.
    rewrite <- (take_drop j d), fmap_app in Hwf.
    by apply NoDup_app in Hwf as (? & _).
  - apply elem_of_take. by exists i.
Qed.

(** X11. Deduplicating a dict keeps every partnership in one direction:
    each kept item is an item of the input, each item of the input is kept
    or has its mirror image kept, and never both unless the two names are
    the same. *)
Theorem deduplicate_partners_directions d :
  dict_wf d →
  (∀ pr, pr ∈ deduplicate_partners d → pr ∈ d)
  ∧ (∀ pr, pr ∈ d →
           pr ∈ deduplicate_partners d
           ∨ prod_swap pr ∈ deduplicate_partners d)
  ∧ (∀ a b, (a, b) ∈ deduplicate_partners d →
            (b, a) ∈ deduplicate_partners d → a = b).
Proof.
  intros Hwf. destruct (dedup_fold_items [] d Hwf) as (Hsub & _ & Hkeep).
  fold (deduplicate_partners d) in Hsub, Hkeep. split_and!.
  - intros pr [Hpr|Hpr]%Hsub; [by apply elem_of_nil in Hpr|done].
  - done.
  - pose proof (deduplicate_partners_canonical d Hwf) as Hcan.
    intros a b [i Hi]%list_elem_of_lookup_1 [j Hj]%list_elem_of_lookup_1.
    destruct (decide (i = j)) as [->|Hij]; [congruence|].
    destruct (decide (i < j)).
    + by destruct (canonical_no_mirror _ i j a b Hcan Hi Hj).
    + destruct (canonical_no_mirror _ j i b a Hcan Hj Hi). lia.
Qed.

Lemma dict_get_snoc d k v : k ∉ keys d → dict_get (d ++ [(k, v)]) k = Some v.
Proof.
  unfold keys. induction d as [|[k' v'] d IH]; simpl.
  - intros _. by rewrite decide_True.
  - rewrite not_elem_of_cons. intros [Hne Hnot].
    rewrite decide_False by done. by apply IH.
Qed.

Lemma names_cons_fresh (a b : participant) (l1 l2 : list participant) :
  NoDup ((a :: l1) ++ b :: l2) →
  a ≠ b ∧ (a ∉ l1 ++ l2) ∧ (b ∉ l1 ++ l2) ∧ NoDup (l1 ++ l2).
Proof.
  simpl. rewrite NoDup_cons, !NoDup_app, NoDup_cons.
  rewrite !not_elem_of_app, not_elem_of_cons.
  intros ((Ha1 & Hab & Ha2) & Hl1 & Hdisj & Hb2 & Hl2). split_and!; try done.
  - intros Hb1. apply (Hdisj b Hb1). apply list_elem_of_here.
  - intros x Hx Hx2. apply (Hdisj x Hx). by apply list_elem_of_further.
Qed.

Lemma read_partners_fold acc pairs :
  NoDup (pairs.*1 ++ pairs.*2) →
  (∀ x, x ∈ keys acc → x ∉ pairs.*1 ++ pairs.*2) →
  foldl (λ partners pr, dict_set (dict_set partners pr.1 pr.2) pr.2 pr.1)
        acc pairs
  = acc ++ both_directions pairs.
Proof.
  unfold both_directions. revert acc.
  induction pairs as [|[a b] pairs IH]; intros acc Hnd Hfresh; simpl.
  - by rewrite app_nil_r.
  - simpl in Hnd.
    destruct (names_cons_fresh a b _ _ Hnd) as (Hab & Ha & Hb & Hnd').
    assert (a ∉ keys acc) as Hka.
    { intros Hin. apply (Hfresh a Hin). simpl. apply list_elem_of_here. }
    assert (b ∉ keys acc) as Hkb.
    { intros Hin. apply (Hfresh b Hin). simpl.
      apply list_elem_of_further, elem_of_app. right.
      apply list_elem_of_here. }
    rewrite (dict_set_fresh acc a b Hka).
    rewrite dict_set_fresh.
    2:{ rewrite keys_snoc, not_elem_of_app, list_elem_of_singleton.
        split; [done|congruence]. }
    rewrite IH; [by rewrite <- !app_assoc|done|].
    intros x Hx.
    rewrite !keys_snoc, !elem_of_app, !list_elem_of_singleton in Hx.
    destruct Hx as [[Hx| ->]| ->]; [|done..].
    intros Hx'. apply (Hfresh x Hx). simpl.
    apply list_elem_of_further. rewrite elem_of_app in Hx' |- *.
    destruct Hx' as [?|?]; [by left|right; by apply list_elem_of_further].
Qed.

Lemma read_partners_both_directions pairs :
  NoDup (pairs.*1 ++ pairs.*2) → read_partners pairs = both_directions pairs.
Proof.
  intros Hnd. unfold read_partners.
  rewrite (read_partners_fold [] pairs Hnd); [done|].
  intros x Hx. by apply elem_of_nil in Hx.
Qed.

Lemma dedup_fold_both_directions acc pairs :
  NoDup (pairs.*1 ++ pairs.*2) →
  (∀ x, x ∈ keys acc → x ∉ pairs.*1 ++ pairs.*2) →
  foldl dedup_step acc (both_directions pairs) = acc ++ pairs.
Proof.
  unfold both_directions. revert acc.
  induction pairs as [|[a b] pairs IH]; intros acc Hnd Hfresh; simpl.
  - by rewrite app_nil_r.
  - simpl in Hnd.
    destruct (names_cons_fresh a b _ _ Hnd) as (Hab & Ha & Hb & Hnd').
    assert (a ∉ keys acc) as Hka.
    { intros Hin. apply (Hfresh a Hin). simpl. apply list_elem_of_here. }
    assert (b ∉ keys acc) as Hkb.
    { intros Hin. apply (Hfresh b Hin). simpl.
      apply list_elem_of_further, elem_of_app. right.
      apply list_elem_of_here. }
    unfold items_contains.
    rewrite (proj2 (dict_get_None acc b) Hkb).
    rewrite (bool_decide_eq_false_2 (None = Some a)) by done.
    rewrite (dict_set_fresh acc a b Hka), (dict_get_snoc acc a b Hka).
    rewrite (bool_decide_eq_true_2 (Some b = Some b)) by done.
    rewrite IH; [by rewrite <- app_assoc|done|].
    intros x Hx.
    rewrite keys_snoc, elem_of_app, list_elem_of_singleton in Hx.
    destruct Hx as [Hx| ->]; [|done].
    intros Hx'. apply (Hfresh x Hx). simpl.
    apply list_elem_of_further. rewrite elem_of_app in Hx' |- *.
    destruct Hx' as [?|?]; [by left|right; by apply list_elem_of_further].
Qed.

(** X12. When no name occurs twice in the partners file, deduplicating what
    [read_partners] built gives back the pairs of the file, each in the
    direction it was written: the mirror items are the ones removed. *)
Theorem deduplicate_read_partners pairs :
  NoDup (pairs.*1 ++ pairs.*2) →
  deduplicate_partners (read_partners pairs) = pairs.
Proof.
  intros Hnd. rewrite read_partners_both_directions by done.
  apply (dedup_fold_both_directions [] pairs Hnd).
  intros x Hx. by apply elem_of_nil in Hx.
Qed.

Lemma dict_wf_dict_set d k v : dict_wf d → dict_wf (dict_set d k v).
Proof.
  unfold dict_wf, keys. induction d as [|[k' v'] d IH]; simpl.
  - intros _. apply NoDup_singleton.
  - intros [Hk' Hnd]%NoDup_cons. case_decide as Hk; simpl.
    + subst k'. by apply NoDup_cons.
    + apply NoDup_cons. split; [|by apply IH].
      intros Hin. apply Hk'. clear IH Hnd Hk'.
      induction d as [|[k'' v''] d IH]; simpl in *.
      * apply list_elem_of_singleton in Hin. congruence.
      * case_decide; simpl in *.
        -- apply elem_of_cons in Hin as [->|?];
             [congruence|by apply list_elem_of_further].
        -- apply elem_of_cons in Hin as [->|?];
             [apply list_elem_of_here|apply list_elem_of_further; auto].
Qed.

Lemma read_partners_wf pairs : dict_wf (read_partners pairs).
Proof.
  unfold read_partners.
  assert (dict_wf []) as Hnil by constructor. revert Hnil.
  generalize ([] : dict). induction pairs as [|pr pairs IH]; intros acc Hacc;
    simpl; [done|].
  by apply IH, dict_wf_dict_set, dict_wf_dict_set.
Qed.

(** X13. What [read_partners] builds is a dict, and when no name occurs
    twice in the file it maps [a] to [b] exactly when the file pairs [a]
    with [b] in either order; so the mapping is symmetric. *)
Theorem read_partners_symmetric pairs a b :
  NoDup (pairs.*1 ++ pairs.*2) →
  dict_get (read_partners pairs) a = Some b
  ↔ (a, b) ∈ pairs ∨ (b, a) ∈ pairs.
Proof.
  intros Hnd. pose proof (read_partners_wf pairs) as Hwf.
  rewrite read_partners_both_directions in Hwf |- * by done.
  assert ((a, b) ∈ both_directions pairs ↔ (a, b) ∈ pairs ∨ (b, a) ∈ pairs)
    as Hmem.
  { unfold both_directions. rewrite list_elem_of_bind. split.
    - intros ([x y] & Hin & Hxy). simpl in Hin.
      apply elem_of_cons in Hin as [[= -> ->]|Hin]; [by left|].
      apply list_elem_of_singleton in Hin as [= -> ->]. by right.
    - intros [Hin|Hin]; eexists; (split; [|exact Hin]); simpl.
      + apply list_elem_of_here.
      + apply list_elem_of_further, list_elem_of_here. }
  rewrite <- Hmem. split; [apply dict_get_Some_elem|by apply dict_get_elem_of].
Qed.

(** * [main] lets no exception escape *)

Lemma create_returns participants partners g x y :
  x ∈ participants → y ∈ participants → x ≠ y →
  ∃ cycle, create_secret_santa_cycle participants partners g = mret cycle.
Proof.
  intros Hx Hy Hxy.
  destruct (partition_nonempty participants partners g x y Hx Hy Hxy)
    as [Ha Hb].
  unfold create_secret_santa_cycle.
  destruct (partition_into_sets participants partners g) as [[sa sb] g1];
    simpl in Ha, Hb.
  pose proof (shuffle_perm g1 sa) as Hsa.
  destruct (shuffle g1 sa) as [sa1 g2]; simpl in Hsa.
  pose proof (shuffle_perm g2 sb) as Hsb.
  destruct (shuffle g2 sb) as [sb1 g3]; simpl in Hsb.
  apply assemble_in_bounds.
  - intros ->. by apply Permutation_nil_l in Hsa.
  - intros ->. by apply Permutation_nil_l in Hsb.
Qed.

Lemma main_cases participants partners g :
  (∃ v, (validate_and_deduplicate_inputs participants partners).2
        = raise (ValueError v)
        ∧ main participants partners g
          = ((validate_and_deduplicate_inputs participants partners).1
               ++ [ValidationError v], None))
  ∨ (∃ participants' partners' cycle,
       (validate_and_deduplicate_inputs participants partners).2
       = mret (participants', partners')
       ∧ create_secret_santa_cycle participants' partners' g = mret cycle
       ∧ main participants partners g
         = ((validate_and_deduplicate_inputs participants partners).1
              ++ CycleHeader :: map (λ e, Assignment e.1 e.2) cycle, None)).
Proof.
  unfold main.
  destruct (validate_and_deduplicate_inputs participants partners)
    as [warnings [e|[participants' partners']]] eqn:Hval; simpl.
  - left. rewrite validate_unfold in Hval. injection Hval as _ Hcheck.
    destruct (check_raises _ _ _ Hcheck) as [v ->]. by eauto.
  - right.
    assert (NoDup participants' ∧ 3 ≤ length participants') as [Hnd Hlen].
    { rewrite validate_unfold in Hval. injection Hval as _ Hcheck.
      apply check_ok in Hcheck as Hout. injection Hout as Hps Hpr.
      assert (∃ out, check (deduplicate participants partners).2.1
                       (deduplicate participants partners).2.2 = mret out)
        as (Hlen & _)%check_accepts_iff by eauto.
      rewrite <- Hps in Hlen. split; [|lia].
      rewrite Hps, deduplicate_participants. apply NoDup_list_of_set. }
    destruct (two_distinct participants' Hnd) as (x & y & Hx & Hy & Hxy);
      [lia|].
    destruct (create_returns participants' partners' g x y Hx Hy Hxy)
      as [cycle Hcycle].
    exists participants', partners', cycle. by rewrite Hcycle.
Qed.

(** X14. Once the files are read, [main] ends without an exception, and it
    prints the header of the cycle exactly when validation accepts the
    input. *)
Theorem main_never_raises participants partners g :
  (main participants partners g).2 = None
  ∧ (CycleHeader ∈ (main participants partners g).1
     ↔ ∃ out, (validate_and_deduplicate_inputs participants partners).2
              = mret out).
Proof.
  destruct (main_cases participants partners g)
    as [(v & Hval & ->)|(ps' & pr' & cycle & Hval & _ & ->)]; simpl;
    (split; [done|]); rewrite Hval.
  - split; [|by intros [??]]. intros [Hin|Hin]%elem_of_app; exfalso.
    + pose proof (deduplicate_warnings participants partners) as Hwarn.
      rewrite validate_unfold in Hin. simpl in Hin.
      rewrite Forall_forall in Hwarn. by apply (Hwarn _ Hin).
    + by apply list_elem_of_singleton in Hin.
  - split; [by eauto|]. intros _. apply elem_of_app. right.
    apply list_elem_of_here.
Qed.

(** * Reading the participants file *)

Lemma lstrip_first s c s' : lstrip s = String c s' → is_space c = false.
Proof.
  induction s as [|a s IH]; simpl; [done|].
  destruct (is_space a) eqn:Ha; [done|]. by intros [= <- _].
Qed.

Lemma rstrip_cons_first c s :
  is_space c = false → ∃ r, rstrip (String c s) = String c r.
Proof. intros Hc. simpl. destruct (rstrip s); rewrite ?Hc; by eauto. Qed.

Lemma rstrip_last s :
  rstrip s ≠ EmptyString →
  ∃ c, last_char (rstrip s) = Some c ∧ is_space c = false.
Proof.
  induction s as [|a s IH]; simpl; [done|].
  destruct (rstrip s) as [|c0 r0] eqn:Hr.
  - destruct (is_space a) eqn:Ha; [done|]. intros _. by exists a.
  - intros _. destruct IH as (c & Hc & Hspace); [done|]. by exists c.
Qed.

Lemma strip_nonempty_clean s : strip s ≠ EmptyString → clean (strip s).
Proof.
  unfold strip. destruct (lstrip s) as [|c s'] eqn:Hl; [done|].
  intros Hne. pose proof (lstrip_first s c s' Hl) as Hc.
  destruct (rstrip_cons_first c s' Hc) as [r Hr]. split.
  - exists c. by rewrite Hr.
  - by apply rstrip_last.
Qed.

(** X15. Every name that [read_participants] returns is non-empty and has
    no white space at either end. *)
Theorem read_participants_clean file : Forall clean (read_participants file).
Proof.
  unfold read_participants. apply Forall_fmap, Forall_forall.
  intros line [Hne _]%list_elem_of_filter. by apply strip_nonempty_clean.
Qed.

Lemma lstrip_app_space w s : all_space w = true → lstrip (w +:+ s) = lstrip s.
Proof.
  induction w as [|c w IH]; simpl; [done|].
  intros [-> Hw]%andb_true_iff. by apply IH.
Qed.

Lemma lstrip_all_space w : all_space w = true → lstrip w = EmptyString.
Proof.
  induction w as [|c w IH]; simpl; [done|].
  intros [-> Hw]%andb_true_iff. by apply IH.
Qed.

Lemma lstrip_nonspace s c :
  first_char s = Some c → is_space c = false → lstrip s = s.
Proof. destruct s; simpl; [done|]. by intros [= ->] ->. Qed.

Lemma rstrip_all_space w : all_space w = true → rstrip w = EmptyString.
Proof.
  induction w as [|c w IH]; simpl; [done|].
  intros [-> Hw]%andb_true_iff. by rewrite IH.
Qed.

Lemma rstrip_app_space s w : all_space w = true → rstrip (s +:+ w) = rstrip s.
Proof.
  intros Hw. induction s as [|c s IH]; simpl.
  - by apply rstrip_all_space.
  - by rewrite IH.
Qed.

Lemma rstrip_nonspace s c :
  last_char s = Some c → is_space c = false → rstrip s = s.
Proof.
  induction s as [|a [|b s] IH]; [done| |].
  - simpl. by intros [= ->] ->.
  - intros Hlast Hc. change (last_char (String b s) = Some c) in Hlast.
    specialize (IH Hlast Hc).
    change (rstrip (String a (String b s)))
      with (match rstrip (String b s) with
            | EmptyString =>
                if is_space a then EmptyString else String a EmptyString
            | r => String a r
            end).
    by rewrite IH.
Qed.

Lemma first_char_app s w c : first_char s = Some c → first_char (s +:+ w) = Some c.
Proof. by destruct s. Qed.

Lemma strip_padded token line : clean token → padded token line → strip line = token.
Proof.
  intros [(c1 & Hfirst & Hc1) (c2 & Hlast & Hc2)] (w1 & w2 & Hw1 & Hw2 & ->).
  unfold strip. rewrite (lstrip_app_space w1 _ Hw1).
  rewrite (lstrip_nonspace _ c1 (first_char_app token w2 c1 Hfirst) Hc1).
  rewrite (rstrip_app_space token w2 Hw2). by apply (rstrip_nonspace _ c2).
Qed.

Lemma clean_nonempty token : clean token → token ≠ EmptyString.
Proof. intros [(c & Hc & _) _] ->. done. Qed.

(** X16. A file that holds one name per line, each non-empty and free of
    white space at its ends, with any white space around it on the line, is
    read back as the list of these names. *)
Theorem read_participants_padded file tokens :
  Forall2 (λ line token, clean token ∧ padded token line) file tokens →
  read_participants file = tokens.
Proof.
  unfold read_participants.
  induction 1 as [|line token file tokens [Hclean Hpad] _ IH]; [done|].
  pose proof (strip_padded token line Hclean Hpad) as Hstrip.
  rewrite filter_cons_True
    by (rewrite Hstrip; by apply clean_nonempty).
  rewrite fmap_cons, Hstrip. by f_equal.
Qed.

(** X17. A line of white space only, the empty line included, is skipped. *)
Theorem read_participants_blank file1 blank file2 :
  all_space blank = true →
  read_participants (file1 ++ blank :: file2)
  = read_participants (file1 ++ file2).
Proof.
  intros Hblank. unfold read_participants.
  rewrite !filter_app, filter_cons_False; [done|].
  unfold strip. rewrite (lstrip_all_space blank Hblank). by intros [].
Qed.

(** * Reading the partners file *)

Lemma length_split sep s : length (split sep s) = S (count_char sep s).
Proof.
  induction s as [|c s IH]; simpl; [done|].
  case_decide; simpl; [by rewrite IH|].
  by destruct (split sep s).
Qed.

Lemma length_line_parts line :
  length (line_parts line) = S (count_char comma line).
Proof. unfold line_parts. by rewrite length_fmap, length_split. Qed.

Lemma unpack2_one_comma line :
  count_char comma line = 1 →
  ∃ p1 p2, line_parts line = [p1; p2]
           ∧ unpack2 (line_parts line) = inr (p1, p2).
Proof.
  intros Hone. pose proof (length_line_parts line) as Hlen.
  rewrite Hone in Hlen.
  destruct (line_parts line) as [|p1 [|p2 [|??]]]; try done. by eauto.
Qed.

Lemma unpack2_malformed line :
  count_char comma line ≠ 1 →
  unpack2 (line_parts line)
  = inl (UnpackError (S (count_char comma line))).
Proof.
  intros Hbad. rewrite <- length_line_parts.
  pose proof (length_line_parts line) as Hlen.
  destruct (line_parts line) as [|p1 [|p2 [|??]]]; try done.
  simpl in Hlen. lia.
Qed.

Lemma read_partners_fold_ok acc file :
  Forall (λ line, count_char comma line = 1) file →
  ∃ pairs,
    Forall2 (λ line pr, line_parts line = [pr.1; pr.2]) file pairs
    ∧ foldl read_partners_step (inr acc) file
      = inr (foldl (λ partners pr,
                      dict_set (dict_set partners pr.1 pr.2) pr.2 pr.1)
                   acc pairs).
Proof.
  intros Hfile. revert acc.
  induction Hfile as [|line file Hline _ IH]; intros acc.
  - exists []. by split; [constructor|].
  - destruct (unpack2_one_comma line Hline) as (p1 & p2 & Hparts & Hunpack).
    simpl. rewrite Hunpack.
    destruct (IH (dict_set (dict_set acc p1 p2) p2 p1))
      as (pairs & Hpairs & ->).
    exists ((p1, p2) :: pairs). split; [by constructor|done].
Qed.

Lemma read_partners_fold_raised e file :
  foldl read_partners_step (inl e) file = inl e.
Proof. by induction file. Qed.

(** X18. When every line of the partners file has exactly one comma, the
    file is read without error, and the result is the mapping built from the
    two stripped parts of each line. *)
Theorem read_partners_file_ok file :
  Forall (λ line, count_char comma line = 1) file →
  ∃ pairs,
    Forall2 (λ line pr, line_parts line = [pr.1; pr.2]) file pairs
    ∧ read_partners_file file = inr (read_partners pairs).
Proof. apply (read_partners_fold_ok []). Qed.

(** X19. The first line without exactly one comma, a blank line for
    instance, makes the unpacking fail: with [n] commas it has [n + 1]
    parts where two are expected. *)
Theorem read_partners_file_malformed good bad rest :
  Forall (λ line, count_char comma line = 1) good →
  count_char comma bad ≠ 1 →
  read_partners_file (good ++ bad :: rest)
  = inl (UnpackError (S (count_char comma bad))).
Proof.
  intros Hgood Hbad. unfold read_partners_file.
  rewrite foldl_app.
  destruct (read_partners_fold_ok [] good Hgood) as (pairs & _ & ->).
  simpl. rewrite (unpack2_malformed bad Hbad).
  apply read_partners_fold_raised.
Qed.




End secret_santa.

(** * The scripted source is a legitimate random source *)

Lemma insertion_order_perm (l : list participant) : insertion_order l ≡ₚ l.
Proof. done. Qed.

Lemma script_shuffle_perm (g : script) (l : list participant) :
  (script_shuffle g l).1 ≡ₚ l.
Proof.
  unfold script_shuffle; simpl.
  destruct (default false (head g.2)); [apply reverse_Permutation|done].
Qed.

(** * Runs on which the one-directional mapping shows

    [read_partners] stores every pair in both directions and the
    deduplication pass of [validate_and_deduplicate_inputs] keeps one of the
    two. [partition_into_sets] and the seam check of
    [create_secret_santa_cycle] then look a participant up among the keys
    only, so the member of a couple that is stored as a value is treated as
    having no partner. *)

Section runs.
#[local] Open Scope string_scope.

Lemma bob_first_accepted :
  validate_and_deduplicate_inputs insertion_order bob_first couple
  = ([WarnPartnerships 1], mret (bob_first, couple_dedup)).
Proof. vm_compute. reflexivity. Qed.

Lemma carol_first_accepted :
  validate_and_deduplicate_inputs insertion_order carol_first couple
  = ([WarnPartnerships 1], mret (carol_first, couple_dedup)).
Proof. vm_compute. reflexivity. Qed.

(** C1. Bob is met before Alice and placed as if he had no partner; when
    Alice is met he is placed a second time, and the cycle has him as
    giver of two edges and as receiver of two. *)
Theorem cycle_repeats_a_participant :
  let cycle :=
    [("Bob", "Alice"); ("Alice", "Carol"); ("Bob", "Bob"); ("Carol", "Bob")]
  in
  validate_and_deduplicate_inputs insertion_order bob_first couple
    = ([WarnPartnerships 1], mret (bob_first, couple_dedup))
  ∧ create_secret_santa_cycle script_coin script_shuffle
      bob_first couple_dedup heads = mret cycle
  ∧ occurrences "Bob" (cycle.*1) = 2
  ∧ occurrences "Bob" (cycle.*2) = 2
  ∧ ¬ covers_once bob_first cycle.
Proof.
  split_and!; [by vm_compute..|].
  apply (bool_decide_eq_false_1 _). by vm_compute.
Qed.

(** C2. Both groups have two members, yet the edge Bob -> Alice joins the
    couple: Bob ends group A, Alice starts group B, and the seam check
    finds no key [Bob] in the mapping. *)
Theorem cycle_joins_a_couple :
  let cycle :=
    [("Carol", "Bob"); ("Bob", "Alice"); ("Dave", "Carol");
     ("Alice", "Dave")]
  in
  validate_and_deduplicate_inputs insertion_order carol_first couple
    = ([WarnPartnerships 1], mret (carol_first, couple_dedup))
  ∧ (partition_into_sets script_coin carol_first couple_dedup tails).1
    = (["Carol"; "Bob"], ["Alice"; "Dave"])
  ∧ create_secret_santa_cycle script_coin script_shuffle
      carol_first couple_dedup tails = mret cycle
  ∧ ("Bob", "Alice") ∈ cycle
  ∧ ¬ partners_apart couple_dedup cycle.
Proof.
  split_and!; [by vm_compute..| |].
  - apply (bool_decide_unpack _). by vm_compute.
  - apply (bool_decide_eq_false_1 _). by vm_compute.
Qed.

(** C3. With the other outcome of the coin, Bob is placed twice in group
    A and the cycle has the edge Bob -> Bob. *)
Theorem cycle_has_self_edge :
  let cycle :=
    [("Bob", "Bob"); ("Bob", "Alice"); ("Carol", "Bob"); ("Alice", "Carol")]
  in
  validate_and_deduplicate_inputs insertion_order bob_first couple
    = ([WarnPartnerships 1], mret (bob_first, couple_dedup))
  ∧ create_secret_santa_cycle script_coin script_shuffle
      bob_first couple_dedup tails = mret cycle
  ∧ ("Bob", "Bob") ∈ cycle
  ∧ ¬ no_self_edge cycle.
Proof.
  split_and!; [by vm_compute..| |].
  - apply (bool_decide_unpack _). by vm_compute.
  - apply (bool_decide_eq_false_1 _). by vm_compute.
Qed.

(** C4. The two groups share Bob, and group A holds both Alice and Bob;
    only the covering part of the invariant survives. *)
Theorem groups_overlap :
  let sa := ["Bob"; "Alice"] in
  let sb := ["Bob"; "Carol"] in
  validate_and_deduplicate_inputs insertion_order bob_first couple
    = ([WarnPartnerships 1], mret (bob_first, couple_dedup))
  ∧ (partition_into_sets script_coin bob_first couple_dedup heads).1
    = (sa, sb)
  ∧ ¬ groups_disjoint sa sb
  ∧ ¬ groups_separate couple_dedup sa sb
  ∧ groups_cover bob_first sa sb.
Proof.
  split_and!; [by vm_compute..| | |].
  - apply (bool_decide_eq_false_1 _). by vm_compute.
  - apply (bool_decide_eq_false_1 _). by vm_compute.
  - apply (bool_decide_unpack _). by vm_compute.
Qed.

(** The two seam checks also interfere. Group A is [Dave, Alice] and group
    B is [Bob, Carol]: the first check sees Alice -> Bob and swaps group B
    into [Carol, Bob], which already separates both couples. The second
    check still uses the end point Carol read before that swap, sees
    Carol -> Dave, and swaps group A into [Alice, Dave]; the result joins
    both couples. *)
Lemma double_swap_joins_couples :
  let cycle :=
    [("Alice", "Dave"); ("Dave", "Carol"); ("Bob", "Alice"); ("Carol", "Bob")]
  in
  validate_and_deduplicate_inputs insertion_order couples_mixed two_couples
    = ([WarnPartnerships 2], mret (couples_mixed, two_couples_dedup))
  ∧ (partition_into_sets script_coin couples_mixed two_couples_dedup
       tails_heads_reverse_b).1
    = (["Dave"; "Alice"], ["Carol"; "Bob"])
  ∧ create_secret_santa_cycle script_coin script_shuffle
      couples_mixed two_couples_dedup tails_heads_reverse_b = mret cycle
  ∧ ("Dave", "Carol") ∈ cycle
  ∧ ("Bob", "Alice") ∈ cycle.
Proof.
  split_and!; [by vm_compute..| |];
    apply (bool_decide_unpack _); by vm_compute.
Qed.

(** Six participants and no partnerships: a cycle of six edges. *)
Lemma six_people_cycle :
  let cycle :=
    [("E", "C"); ("C", "A"); ("A", "B"); ("F", "E"); ("B", "D"); ("D", "F")]
  in
  create_secret_santa_cycle script_coin script_shuffle six_people None
    reverse_a = mret cycle
  ∧ covers_once six_people cycle
  ∧ no_self_edge cycle.
Proof.
  split_and!; [by vm_compute|..];
    apply (bool_decide_unpack _); by vm_compute.
Qed.

End runs.

(** * The general theorems at concrete inputs *)

Section instances.
#[local] Open Scope string_scope.

Lemma dict_wf_couple d : couple = Some d → dict_wf d.
Proof. intros [= <-]. apply (bool_decide_unpack _). by vm_compute. Qed.

(** Two participants are refused. *)
Lemma insufficient_participants_two_people :
  (∀ l, insertion_order l ≡ₚ l)
  ∧ ((validate_and_deduplicate_inputs insertion_order two_people None).2
       = raise (ValueError InsufficientParticipants)
     ↔ (distinct_count two_people < 3)%nat).
Proof.
  split; [exact insertion_order_perm|].
  exact (insufficient_participants_iff insertion_order insertion_order_perm
           two_people None).
Defined.

(** Two couples among three participants are too many. *)
Lemma too_many_partnerships_two_couples :
  let participants := ["Alice"; "Bob"; "Carol"] in
  (∀ l, insertion_order l ≡ₚ l)
  ∧ (3 ≤ distinct_count participants)%nat
  ∧ ((∃ m, (validate_and_deduplicate_inputs insertion_order
              participants two_couples).2
           = raise (ValueError (TooManyPartnerships m)))
     ↔ (2 * (distinct_count participants `div` 2)
        < distinct_count
            (partner_ids
               (deduplicate insertion_order participants two_couples).2.2))%nat).
Proof.
  intros participants.
  assert (3 ≤ distinct_count participants)%nat as Hn by (vm_compute; lia).
  split_and!; [exact insertion_order_perm|exact Hn|].
  exact (too_many_partnerships_iff insertion_order insertion_order_perm
           participants two_couples Hn).
Defined.

(** A partner who is not a participant is reported. *)
Lemma unknown_partner_stranger :
  let participants := ["Alice"; "Bob"; "Carol"] in
  (∀ l, insertion_order l ≡ₚ l)
  ∧ (3 ≤ distinct_count participants)%nat
  ∧ (distinct_count
       (partner_ids (deduplicate insertion_order participants stranger).2.2)
     ≤ 2 * (distinct_count participants `div` 2))%nat
  ∧ ((∃ p, (validate_and_deduplicate_inputs insertion_order
              participants stranger).2
           = raise (ValueError (UnknownPartner p)))
     ↔ ∃ x, x ∈ partner_ids
                  (deduplicate insertion_order participants stranger).2.2
            ∧ x ∉ participants).
Proof.
  intros participants.
  assert (3 ≤ distinct_count participants)%nat as Hn by (vm_compute; lia).
  assert (distinct_count
            (partner_ids
               (deduplicate insertion_order participants stranger).2.2)
          ≤ 2 * (distinct_count participants `div` 2))%nat as Hmax
    by (vm_compute; lia).
  split_and!; [exact insertion_order_perm|exact Hn|exact Hmax|].
  exact (unknown_partner_iff insertion_order insertion_order_perm
           participants stranger Hn Hmax).
Defined.

(** The run on two participants prints the error and no cycle. *)
Lemma validation_error_aborts_two_people :
  validate_and_deduplicate_inputs insertion_order two_people couple
    = ([WarnPartnerships 1], raise (ValueError InsufficientParticipants))
  ∧ ∃ v, ValueError InsufficientParticipants = ValueError v
         ∧ main script_coin script_shuffle insertion_order
             two_people couple heads
           = (([WarnPartnerships 1] ++ [ValidationError v])%list, None)
         ∧ Forall (λ ln, ¬ is_cycle_line ln)
             (main script_coin script_shuffle insertion_order
                two_people couple heads).1.
Proof.
  assert (validate_and_deduplicate_inputs insertion_order two_people couple
          = ([WarnPartnerships 1],
             raise (ValueError InsufficientParticipants))) as Hval
    by (vm_compute; reflexivity).
  split; [exact Hval|].
  exact (validation_error_aborts_run script_coin script_shuffle
           insertion_order two_people couple heads _ _ Hval).
Defined.

(** Normalizing the normalized input changes nothing. *)
Lemma normalization_idempotent_with_duplicate :
  let participants' := ["Bob"; "Alice"; "Carol"; "Dave"] in
  (∀ l, insertion_order l ≡ₚ l)
  ∧ (∀ d, couple = Some d → dict_wf d)
  ∧ validate_and_deduplicate_inputs insertion_order with_duplicate couple
    = ([WarnParticipants 1; WarnPartnerships 1],
       mret (participants', couple_dedup))
  ∧ ∃ participants'',
      validate_and_deduplicate_inputs insertion_order
        participants' couple_dedup
      = ([], mret (participants'', couple_dedup))
      ∧ participants'' ≡ₚ participants'.
Proof.
  intros participants'.
  assert (validate_and_deduplicate_inputs insertion_order
            with_duplicate couple
          = ([WarnParticipants 1; WarnPartnerships 1],
             mret (participants', couple_dedup))) as Hval
    by (vm_compute; reflexivity).
  split_and!; [exact insertion_order_perm|exact dict_wf_couple|exact Hval|].
  exact (normalization_idempotent insertion_order insertion_order_perm
           with_duplicate couple _ _ _ dict_wf_couple Hval).
Defined.

(** The run on four participants and one couple stays in bounds. *)
Lemma cycle_assembly_in_bounds_carol_first :
  (∀ l, insertion_order l ≡ₚ l)
  ∧ (∀ g l, (script_shuffle g l).1 ≡ₚ l)
  ∧ validate_and_deduplicate_inputs insertion_order carol_first couple
    = ([WarnPartnerships 1], mret (carol_first, couple_dedup))
  ∧ (partition_into_sets script_coin carol_first couple_dedup tails).1.1
    ≠ []
  ∧ (partition_into_sets script_coin carol_first couple_dedup tails).1.2
    ≠ []
  ∧ ∃ cycle,
      create_secret_santa_cycle script_coin script_shuffle
        carol_first couple_dedup tails = mret cycle.
Proof.
  split_and!;
    [exact insertion_order_perm|exact script_shuffle_perm
    |exact carol_first_accepted|..];
    apply (cycle_assembly_in_bounds script_coin script_shuffle
             insertion_order insertion_order_perm script_shuffle_perm
             carol_first couple _ _ _ tails carol_first_accepted).
Defined.

(** A repeated entry changes nothing. *)
Lemma partition_skips_repeats_bob :
  "Bob" ∈ ["Bob"; "Alice"]
  ∧ partition_loop script_coin couple_dedup
      (["Bob"; "Alice"] ++ "Bob" :: ["Carol"])%list heads
    = partition_loop script_coin couple_dedup
        (["Bob"; "Alice"] ++ ["Carol"])%list heads.
Proof.
  assert ("Bob" ∈ ["Bob"; "Alice"]) as Hin by apply list_elem_of_here.
  split; [exact Hin|].
  exact (partition_skips_repeats script_coin couple_dedup
           ["Bob"; "Alice"] ["Carol"] "Bob" heads Hin).
Defined.

(** The mapping as [read_partners] builds it is partitioned properly. *)
Lemma partition_symmetric_couple :
  let d := read_partners [("Alice", "Bob")] in
  NoDup bob_first
  ∧ dict_wf d
  ∧ Forall (λ pr, prod_swap pr ∈ d ∧ pr.1 ≠ pr.2 ∧ pr.1 ∈ bob_first) d
  ∧ ((partition_into_sets script_coin bob_first (Some d) heads).1.1
       ++ (partition_into_sets script_coin bob_first (Some d) heads).1.2
     ≡ₚ bob_first
     ∧ groups_disjoint
         (partition_into_sets script_coin bob_first (Some d) heads).1.1
         (partition_into_sets script_coin bob_first (Some d) heads).1.2
     ∧ groups_separate (Some d)
         (partition_into_sets script_coin bob_first (Some d) heads).1.1
         (partition_into_sets script_coin bob_first (Some d) heads).1.2)%list.
Proof.
  intros d.
  assert (NoDup bob_first) as Hnd
    by (apply (bool_decide_unpack _); by vm_compute).
  assert (dict_wf d) as Hwf
    by (apply (bool_decide_unpack _); by vm_compute).
  assert (Forall (λ pr, prod_swap pr ∈ d ∧ pr.1 ≠ pr.2 ∧ pr.1 ∈ bob_first) d)
    as Hsym by (apply (bool_decide_unpack _); by vm_compute).
  split_and!; [exact Hnd|exact Hwf|exact Hsym|..];
    apply (partition_symmetric script_coin bob_first d heads Hnd Hwf Hsym).
Defined.

(** The cycle of the run on four participants is a round trip. *)
Lemma cycle_is_round_trip_carol_first :
  (∀ g l, (script_shuffle g l).1 ≡ₚ l)
  ∧ "Carol" ∈ carol_first ∧ "Alice" ∈ carol_first ∧ "Carol" ≠ "Alice"
  ∧ ∃ cycle l,
      create_secret_santa_cycle script_coin script_shuffle
        carol_first couple_dedup tails = mret cycle
      ∧ l ≡ₚ ((partition_into_sets script_coin carol_first couple_dedup
                 tails).1.1
              ++ (partition_into_sets script_coin carol_first couple_dedup
                    tails).1.2)%list
      ∧ cycle ≡ₚ circular l.
Proof.
  assert ("Carol" ∈ carol_first) as Hx
    by (apply (bool_decide_unpack _); by vm_compute).
  assert ("Alice" ∈ carol_first) as Hy
    by (apply (bool_decide_unpack _); by vm_compute).
  assert ("Carol" ≠ "Alice") as Hxy by done.
  split_and!; [exact script_shuffle_perm|exact Hx|exact Hy|exact Hxy|].
  exact (cycle_is_round_trip script_coin script_shuffle script_shuffle_perm
           carol_first couple_dedup tails "Carol" "Alice" Hx Hy Hxy).
Defined.

(** Alice is mapped to Bob, Bob leads the group, Carol follows. *)
Lemma resolve_seam_swaps_carol :
  let d := [("Alice", "Bob")] in
  let l := ["Bob"; "Carol"] in
  dict_get d "Alice" = Some "Bob"
  ∧ "Carol" ∈ tail l ∧ "Carol" ≠ "Bob"
  ∧ ∃ l' x', resolve_seam d "Alice" "Bob" l = mret l'
             ∧ l' ≡ₚ l ∧ l' !! 0%nat = Some x' ∧ x' ≠ "Bob".
Proof.
  intros d l.
  assert (dict_get d "Alice" = Some "Bob") as Hd by reflexivity.
  assert ("Carol" ∈ tail l) as Hx by apply list_elem_of_here.
  assert ("Carol" ≠ "Bob") as Hne by done.
  split_and!; [exact Hd|exact Hx|exact Hne|].
  exact (resolve_seam_swaps d "Alice" "Bob" l "Carol" Hd Hx Hne).
Defined.

(** Bob is alone in his group. *)
Lemma resolve_seam_stuck_singleton :
  let d := [("Alice", "Bob")] in
  dict_get d "Alice" = Some "Bob"
  ∧ Forall (λ x, x = "Bob") (tail ["Bob"])
  ∧ resolve_seam d "Alice" "Bob" ["Bob"] = mret ["Bob"].
Proof.
  intros d.
  assert (dict_get d "Alice" = Some "Bob") as Hd by reflexivity.
  assert (Forall (λ x, x = "Bob") (tail ["Bob"])) as Hall by constructor.
  split_and!; [exact Hd|exact Hall|].
  exact (resolve_seam_stuck d "Alice" "Bob" ["Bob"] Hd Hall).
Defined.

(** Four participants and one couple are accepted. *)
Lemma validate_accepts_carol_first :
  (∀ l, insertion_order l ≡ₚ l)
  ∧ ((∃ out, (validate_and_deduplicate_inputs insertion_order
                carol_first couple).2 = mret out)
     ↔ (3 ≤ distinct_count carol_first)%nat
       ∧ (distinct_count
            (partner_ids
               (deduplicate insertion_order carol_first couple).2.2)
          ≤ 2 * (distinct_count carol_first `div` 2))%nat
       ∧ ∀ x, x ∈ partner_ids
                    (deduplicate insertion_order carol_first couple).2.2 →
              x ∈ carol_first).
Proof.
  split; [exact insertion_order_perm|].
  exact (validate_accepts_iff insertion_order insertion_order_perm
           carol_first couple).
Defined.

Lemma validate_participants_carol_first :
  (∀ l, insertion_order l ≡ₚ l)
  ∧ validate_and_deduplicate_inputs insertion_order carol_first couple
    = ([WarnPartnerships 1], mret (carol_first, couple_dedup))
  ∧ (NoDup carol_first
     ∧ (∀ x, x ∈ carol_first ↔ x ∈ carol_first)
     ∧ length carol_first = distinct_count carol_first
     ∧ (3 ≤ length carol_first)%nat).
Proof.
  split_and!; [exact insertion_order_perm|exact carol_first_accepted|..];
    apply (validate_participants insertion_order insertion_order_perm
             carol_first couple _ _ _ carol_first_accepted).
Defined.

Lemma no_warning_carol_first :
  (∀ l, insertion_order l ≡ₚ l)
  ∧ (∀ d, couple = Some d → dict_wf d)
  ∧ ((validate_and_deduplicate_inputs insertion_order carol_first couple).1
       = []
     ↔ NoDup carol_first ∧ ∀ d, couple = Some d → canonical d).
Proof.
  split_and!; [exact insertion_order_perm|exact dict_wf_couple|].
  exact (no_warning_iff insertion_order insertion_order_perm
           carol_first couple dict_wf_couple).
Defined.

Lemma deduplicate_partners_directions_couple :
  let d := read_partners [("Alice", "Bob")] in
  dict_wf d
  ∧ ((∀ pr, pr ∈ deduplicate_partners d → pr ∈ d)
     ∧ (∀ pr, pr ∈ d →
              pr ∈ deduplicate_partners d
              ∨ prod_swap pr ∈ deduplicate_partners d)
     ∧ (∀ a b, (a, b) ∈ deduplicate_partners d →
               (b, a) ∈ deduplicate_partners d → a = b)).
Proof.
  intros d.
  assert (dict_wf d) as Hwf by (apply (bool_decide_unpack _); by vm_compute).
  split; [exact Hwf|].
  exact (deduplicate_partners_directions d Hwf).
Defined.

Lemma deduplicate_read_partners_two_couples :
  let pairs := [("Alice", "Bob"); ("Carol", "Dave")] in
  NoDup (pairs.*1 ++ pairs.*2)%list
  ∧ deduplicate_partners (read_partners pairs) = pairs.
Proof.
  intros pairs.
  assert (NoDup (pairs.*1 ++ pairs.*2)%list) as Hnd
    by (apply (bool_decide_unpack _); by vm_compute).
  split; [exact Hnd|].
  exact (deduplicate_read_partners pairs Hnd).
Defined.

Lemma read_partners_symmetric_two_couples :
  let pairs := [("Alice", "Bob"); ("Carol", "Dave")] in
  NoDup (pairs.*1 ++ pairs.*2)%list
  ∧ (dict_get (read_partners pairs) "Bob" = Some "Alice"
     ↔ ("Bob", "Alice") ∈ pairs ∨ ("Alice", "Bob") ∈ pairs).
Proof.
  intros pairs.
  assert (NoDup (pairs.*1 ++ pairs.*2)%list) as Hnd
    by (apply (bool_decide_unpack _); by vm_compute).
  split; [exact Hnd|].
  exact (read_partners_symmetric pairs "Bob" "Alice" Hnd).
Defined.

Lemma main_never_raises_carol_first :
  (∀ l, insertion_order l ≡ₚ l)
  ∧ (∀ g l, (script_shuffle g l).1 ≡ₚ l)
  ∧ ((main script_coin script_shuffle insertion_order
        carol_first couple tails).2 = None
     ∧ (CycleHeader ∈ (main script_coin script_shuffle insertion_order
                         carol_first couple tails).1
        ↔ ∃ out, (validate_and_deduplicate_inputs insertion_order
                    carol_first couple).2 = mret out)).
Proof.
  split_and!; [exact insertion_order_perm|exact script_shuffle_perm|..];
    apply (main_never_raises script_coin script_shuffle insertion_order
             insertion_order_perm script_shuffle_perm
             carol_first couple tails).
Defined.

Lemma clean_alice : clean "Alice".
Proof. split; eexists; (split; [reflexivity|by vm_compute]). Qed.

Lemma clean_bob : clean "Bob".
Proof. split; eexists; (split; [reflexivity|by vm_compute]). Qed.

Lemma read_participants_padded_file :
  Forall2 (λ line token, clean token ∧ padded token line)
    participants_file ["Alice"; "Bob"]
  ∧ read_participants participants_file = ["Alice"; "Bob"].
Proof.
  assert (Forall2 (λ line token, clean token ∧ padded token line)
            participants_file ["Alice"; "Bob"]) as Hfile.
  { constructor; [split; [apply clean_alice|]|].
    { exists "  ", newline. by vm_compute. }
    constructor; [split; [apply clean_bob|]|constructor].
    exists "", (" " +:+ newline). by vm_compute. }
  split; [exact Hfile|].
  exact (read_participants_padded participants_file ["Alice"; "Bob"] Hfile).
Defined.

Lemma read_participants_blank_line :
  all_space newline = true
  ∧ read_participants (["Alice"] ++ newline :: ["Bob"])%list
    = read_participants (["Alice"] ++ ["Bob"])%list.
Proof.
  assert (all_space newline = true) as Hblank by (by vm_compute).
  split; [exact Hblank|].
  exact (read_participants_blank ["Alice"] newline ["Bob"] Hblank).
Defined.

Lemma read_partners_file_ok_two_couples :
  Forall (λ line, count_char comma line = 1%nat) partners_file
  ∧ ∃ pairs,
      Forall2 (λ line pr, line_parts line = [pr.1; pr.2]) partners_file pairs
      ∧ read_partners_file partners_file = inr (read_partners pairs).
Proof.
  assert (Forall (λ line, count_char comma line = 1%nat) partners_file)
    as Hfile by (apply (bool_decide_unpack _); by vm_compute).
  split; [exact Hfile|].
  exact (read_partners_file_ok partners_file Hfile).
Defined.

Lemma read_partners_file_blank_line :
  Forall (λ line, count_char comma line = 1%nat) partners_file
  ∧ count_char comma newline ≠ 1%nat
  ∧ read_partners_file (partners_file ++ newline :: [])%list
    = inl (UnpackError (S (count_char comma newline))).
Proof.
  assert (Forall (λ line, count_char comma line = 1%nat) partners_file)
    as Hfile by (apply (bool_decide_unpack _); by vm_compute).
  assert (count_char comma newline ≠ 1%nat) as Hbad by (by vm_compute).
  split_and!; [exact Hfile|exact Hbad|].
  exact (read_partners_file_malformed partners_file newline [] Hfile Hbad).
Defined.


End instances.
